(** * romanisim/cr.py: cosmic-ray injection, a shallow embedding

    The module draws cosmic-ray events, rasterises each straight trail
    over the pixel grid ([traverse]) and adds Poisson counts to the image
    ([simulate_crs]).  Numbers are the binary64 values NumPy computes
    with: they are embedded as Rocq's primitive [float], so every
    definition below evaluates exactly as the Python does on the same
    inputs.  Python exceptions are values of [result]. *)

From Stdlib Require Import ZArith List Bool Lia Uint63 Floats.
From stdpp Require Import base option list sorting.

Set Warnings "-inexact-float".

(** ** Python outcomes *)

Inductive exn : Set :=
  | UnboundLocalError   (* a local variable read before assignment *)
  | IndexError          (* subscript out of range *)
  | ValueError          (* argument rejected by a NumPy or SciPy routine *)
  | ZeroDivisionError.  (* division of Python numbers by zero *)

Inductive result (A : Type) : Type :=
  | Ok (a : A)
  | Raise (e : exn).
Arguments Ok {A} a.
Arguments Raise {A} e.

#[global] Instance result_ret : MRet result := fun A a => Ok a.
#[global] Instance result_bind : MBind result := fun A B k r =>
  match r with
  | Ok a => k a
  | Raise e => Raise e
  end.

(** ** binary64 helpers used by the NumPy primitives *)

Module F64.
Local Open Scope float_scope.

(** Integer part, rounded towards minus infinity; [None] on NaN and on
    the infinities. *)
Definition floorZ (x : float) : option Z :=
  match Prim2SF x with
  | S754_zero _ => Some 0%Z
  | S754_finite s m e => Some (Z.shiftl (cond_Zopp s (Zpos m)) e)
  | S754_infinity _ | S754_nan => None
  end.

(** The int64 -> float64 conversion: the nearest binary64 value, ties to
    even. *)
Definition of_Z (z : Z) : float :=
  if (z <? 0)%Z then - of_uint63 (Uint63.of_Z (- z))
  else of_uint63 (Uint63.of_Z z).

(** [np.floor]: NaN, the infinities and the zeros are returned as they
    are, and so is a value whose integer part has a magnitude of 2^53 or
    more: it is an integer already.  Below that the integer part is an
    int64 that converts exactly. *)
Definition floor (x : float) : float :=
  match floorZ x with
  | Some z =>
      if is_zero x then x
      else if (Z.abs z <? 9007199254740992)%Z then of_Z z
      else x
  | None => x
  end.

Definition int64_min : Z := (- 2 ^ 63)%Z.

(** [ndarray.astype(int)]: truncation towards zero; what does not fit
    an int64 (NaN and the infinities included) becomes the smallest
    int64, as on x86-64. *)
Definition astype_int (x : float) : Z :=
  match Prim2SF x with
  | S754_zero _ => 0%Z
  | S754_finite s m e =>
      let z := cond_Zopp s (Z.shiftl (Zpos m) e) in
      if ((int64_min <=? z) && (z <? 2 ^ 63))%Z then z else int64_min
  | S754_infinity _ | S754_nan => int64_min
  end.

(** [np.sign] *)
Definition sign (x : float) : float :=
  if is_nan x then x
  else if 0 <? x then 1
  else if x <? 0 then -1
  else 0.

(** [x != 0] *)
Definition nonzero (x : float) : bool := negb (x =? 0).

(** The order NumPy sorts float64 by: [<], with NaN after everything. *)
Definition sort_lt (x y : float) : bool :=
  (x <? y) || (is_nan y && negb (is_nan x)).

(** [np.isclose(x, 0)] with the default [rtol = 1e-5], [atol = 1e-8]. *)
Definition isclose0 (x : float) : bool :=
  abs (x - 0) <=? 1e-8 + 1e-5 * abs 0.

(** [x ** 2] and [x ** 0.5] on arrays: NumPy computes them as [x * x]
    and [sqrt x]. *)
Definition square (x : float) : float := x * x.
Definition hypot2 (d : float * float) : float :=
  sqrt (square d.1 + square d.2).
End F64.

(** ** NumPy array primitives on lists *)

Definition point : Set := (float * float)%type.

(** The integers [start], [start + 1], ... ([n] of them). *)
Fixpoint zrange (start : Z) (n : nat) : list Z :=
  match n with
  | O => []
  | S n' => start :: zrange (start + 1) n'
  end.

(** The lengths [np.arange] accepts for an array of float64: 8 bytes per
    item must fit the index type.  (Whether memory of an accepted length
    can be had is left out.) *)
Definition arange_limit : Z := 1152921504606846976.   (* 2^60 *)

(** [np.arange(0, stop)]: the floats 0, 1, ..., one for every integer
    below [stop]; NumPy rejects a length it cannot compute (NaN or
    infinite) and one that is too large. *)
Definition arange0 (stop : float) : result (list float) :=
  match F64.floorZ (- stop)%float with
  | Some z =>
      if (arange_limit <=? - z)%Z then Raise ValueError
      else Ok (map F64.of_Z (zrange 0 (Z.to_nat (- z))))
  | None => Raise ValueError
  end.

(** [[i0, j0] + borders.reshape(-1, 1) @ [[si, sj]]]: one row per border. *)
Definition offsets (o : point) (si sj : float) (borders : list float)
  : list point :=
  map (fun b => (o.1 + b * si, o.2 + b * sj)%float) borders.

Definition sort_le (x y : float) : Prop := F64.sort_lt y x = false.
Definition row_lt (p q : point) : bool :=
  F64.sort_lt p.1 q.1 || (negb (F64.sort_lt q.1 p.1) && F64.sort_lt p.2 q.2).
Definition col0_le (p q : point) : Prop := sort_le p.1 q.1.
Definition row_le (p q : point) : Prop := row_lt q p = false.

#[global] Instance col0_le_dec : RelDecision col0_le.
Proof. intros p q. unfold col0_le, sort_le. apply _. Defined.
#[global] Instance row_le_dec : RelDecision row_le.
Proof. intros p q. unfold row_le. apply _. Defined.

(** [a[np.argsort(a[:, 0])]] *)
Definition sort_by_col0 (l : list point) : list point := merge_sort col0_le l.

Definition row_eqb (p q : point) : bool :=
  (p.1 =? q.1)%float && (p.2 =? q.2)%float.

(** The mask [aux[1:] != aux[:-1]] of [np.unique]: a row is kept when it
    differs from the row before it. *)
Fixpoint drop_repeats (prev : point) (l : list point) : list point :=
  match l with
  | [] => []
  | p :: l' =>
      if row_eqb p prev then drop_repeats p l' else p :: drop_repeats p l'
  end.

(** [np.unique(a, axis=0)]: rows sorted lexicographically, repeats removed. *)
Definition unique_rows (l : list point) : list point :=
  match merge_sort row_le l with
  | [] => []
  | p :: l' => p :: drop_repeats p l'
  end.

(** [np.diff(a, axis=0)] *)
Fixpoint diff_rows (l : list point) : list point :=
  match l with
  | p :: (q :: _) as l' => (q.1 - p.1, q.2 - p.2)%float :: diff_rows l'
  | _ => []
  end.

(** ** [traverse] *)

Section Traverse.
Local Open Scope float_scope.

(** Lines 176-185: the end with the smaller [i] becomes [(i0, j0)]. *)
Definition canonical (trail_start trail_end : point) : point * point :=
  if trail_start.1 <? trail_end.1
  then (trail_start, trail_end)
  else (trail_end, trail_start).

(** Lines 187-201: the points [(i0, j0) + k * step] for k = 0 .. floor |d|,
    or the single row [(i0, j0)] when the trail does not move along the
    axis. *)
Definition crossings_along (o : point) (d si sj : float)
  : result (list point) :=
  if F64.nonzero d then
    ks ← arange0 (F64.floor (abs d + 1));
    Ok (offsets o si sj (map (fun k => F64.sign d * k) ks))
  else Ok [o].

(** Lines 209-213 *)
Definition outside (N_i N_j : float) (c : point) : bool :=
  (c.1 <? 0) || (N_i <? c.1) || (c.2 <? 0) || (N_j <? c.2).

Definition pixel_of (c : point) : Z * Z :=
  (F64.astype_int (F64.floor c.1), F64.astype_int (F64.floor c.2)).

(** Lines 203-213: all crossings, sorted, without repeats, inside the
    detector. *)
Definition surviving_crossings (o : point) (di dj N_i N_j : float)
  : result (list point) :=
  cross_i ← crossings_along o di 1 (dj / di);
  cross_j ← crossings_along o dj (di / dj) 1;
  let crossings := sort_by_col0 (cross_i ++ cross_j) in
  let crossings := unique_rows crossings in
  Ok (filter (fun c => negb (outside N_i N_j c)) crossings).

(** [(crossings - np.floor(crossings))[-1]] *)
Definition frac_part (c : point) : point :=
  (c.1 - F64.floor c.1, c.2 - F64.floor c.2).

(** The function returns the arrays [ii], [jj] and [lengths]. *)
Definition traverse (trail_start trail_end : point) (N_i N_j : float)
  : result (list Z * list Z * list float) :=
  let '((i0, j0), (i1, j1)) := canonical trail_start trail_end in
  let di := i1 - i0 in
  let dj := j1 - j0 in
  crossings ← surviving_crossings (i0, j0) di dj N_i N_j;
  if decide (1 < length crossings)%nat then
    let pixels := map pixel_of crossings in
    let last_diff := frac_part (List.last crossings (0, 0)) in
    if F64.isclose0 last_diff.1 && F64.isclose0 last_diff.2 then
      (* [ii], [jj] and [diffs] are assigned; [lengths] is not, and the
         [return] on line 235 reads it *)
      Raise UnboundLocalError
    else
      let diffs := diff_rows crossings ++ [last_diff] in
      Ok (map fst pixels, map snd pixels, map F64.hypot2 diffs)
  else
    let pixels := map pixel_of crossings in
    Ok (map fst pixels, map snd pixels,
        [sqrt (F64.square di + F64.square dj)]).

(** The default detector size of line 153. *)
Definition default_N : float := 4096.
End Traverse.


(** ** The platform

    What the module takes from NumPy, SciPy and the C library and that is
    not fixed by IEEE 754: the bit generator behind
    [np.random.Generator], the elementary functions, and SciPy's
    [interp1d] object. *)

Record platform : Type := {
  generator : Type;
  default_rng : Z -> generator;
  (** one uniform draw in [0, 1) *)
  next_double : generator -> float * generator;
  (** one Poisson draw of the given (valid) mean *)
  next_poisson : float -> generator -> Z * generator;
  np_exp : float -> float;
  np_power : float -> float -> float;
  np_cos : float -> float;
  np_sin : float -> float;
  interpolant : Type;
  interp1d : list float -> list float -> result interpolant;
  interp_call : interpolant -> list float -> result (list float)
}.

Definition np_pi : float := 3.141592653589793%float.

(** [np.maximum] and [np.minimum]: a NaN operand is returned. *)
Definition np_maximum (a b : float) : float :=
  if is_nan a then a else if is_nan b then b
  else if (a <? b)%float then b else a.
Definition np_minimum (a b : float) : float :=
  if is_nan a then a else if is_nan b then b
  else if (b <? a)%float then b else a.

(** [a.clip(lo, hi)] *)
Definition np_clip (lo hi a : float) : float :=
  np_minimum (np_maximum a lo) hi.

(** [np.cumsum]: a running sum from the left. *)
Fixpoint cumsum_from (acc : float) (l : list float) : list float :=
  match l with
  | [] => []
  | y :: l' => let acc' := (acc + y)%float in acc' :: cumsum_from acc' l'
  end.
Definition cumsum (l : list float) : list float :=
  match l with
  | [] => []
  | y :: l' => y :: cumsum_from y l'
  end.

(** [a.max()] of a non-empty array, first element given apart. *)
Definition np_max (a0 : float) (l : list float) : float :=
  foldl np_maximum a0 l.

(** [np.linspace(start, stop, num)] *)
Definition linspace (start stop : float) (num : Z) : result (list float) :=
  if (num <? 0)%Z then Raise ValueError else
  let n := Z.to_nat num in
  let div := F64.of_Z (num - 1) in
  let delta := (stop - start)%float in
  let y := map F64.of_Z (zrange 0 n) in
  let y :=
    if (0 <? div)%float then
      let step := (delta / div)%float in
      if (step =? 0)%float then map (fun v => (v / div * delta)%float) y
      else map (fun v => (v * step)%float) y
    else map (fun v => (v * delta)%float) y in
  let y := map (fun v => (v + start)%float) y in
  Ok (if (1 <? num)%Z then <[pred n := stop]> y else y).

(** ** The random generator on arrays *)

Section Sampling.
Context (P : platform).

(** [rng.random(n)]: n draws in order. *)
Fixpoint random_array (n : nat) (g : generator P)
  : list float * generator P :=
  match n with
  | O => ([], g)
  | S n' =>
      let '(u, g1) := next_double P g in
      let '(us, g2) := random_array n' g1 in
      (u :: us, g2)
  end.

(** NumPy rejects a Poisson mean that is negative, NaN or too large
    before it draws anything. *)
Definition poisson_lam_max : float := 9.223372006484771e18%float.
Definition poisson_lam_ok (lam : float) : bool :=
  (0 <=? lam)%float && (lam <=? poisson_lam_max)%float.

Fixpoint poisson_draws (lams : list float) (g : generator P)
  : list Z * generator P :=
  match lams with
  | [] => ([], g)
  | lam :: lams' =>
      let '(n, g1) := next_poisson P lam g in
      let '(ns, g2) := poisson_draws lams' g1 in
      (n :: ns, g2)
  end.

(** [rng.poisson(lams)] on an array of means. *)
Definition poisson_array (lams : list float) (g : generator P)
  : result (list Z) * generator P :=
  if forallb poisson_lam_ok lams
  then let '(ns, g') := poisson_draws lams g in (Ok ns, g')
  else (Raise ValueError, g).

(** [rng.poisson(lam)] on one mean. *)
Definition poisson_scalar (lam : float) (g : generator P)
  : result Z * generator P :=
  if poisson_lam_ok lam
  then let '(n, g') := next_poisson P lam g in (Ok n, g')
  else (Raise ValueError, g).

(** ** [create_sampler] and the two densities *)

Definition create_sampler (pdf : list float -> list float) (x : list float)
  : result (interpolant P) :=
  let y := pdf x in
  match y with
  | [] => Raise IndexError                       (* y[0] *)
  | y0 :: _ =>
      let cdf_y := map (fun c => (c - y0)%float) (cumsum y) in
      match cdf_y with
      | [] => Raise ValueError
      | c0 :: cs =>
          let m := np_max c0 cs in
          let cdf_y := map (fun c => (c / m)%float) cdf_y in
          interp1d P cdf_y x
      end
  end.

Definition moyal_distribution (location scale : float) (x : list float)
  : list float :=
  map (fun v =>
         let xs := ((v - location) / scale)%float in
         np_exp P (- (xs + np_exp P (- xs)) / 2)%float) x.

Definition power_law_distribution (slope : float) (x : list float)
  : list float :=
  map (fun v => np_power P v slope) x.

(** ** [sample_cr_params] *)

(** Rows of an (n, 2) array filled in order. *)
Fixpoint rows2 (l : list float) : list (float * float) :=
  match l with
  | u :: v :: l' => (u, v) :: rows2 l'
  | _ => []
  end.

Record cr_params : Type := {
  cr_i : list float;
  cr_j : list float;
  cr_phi : list float;
  cr_length : list float;
  cr_dEdx : list float
}.

Definition sample_cr_params (N_samples : Z) (N_i N_j : Z)
    (min_dEdx max_dEdx min_cr_len max_cr_len : float) (grid_size : Z)
    (g : generator P) : result cr_params * generator P :=
  if (N_samples <? 0)%Z then (Raise ValueError, g) else
  let n := Z.to_nat N_samples in
  (* sample CR positions [pix] *)
  let '(us, g) := random_array (2 * n) g in
  let pos := rows2 us in
  let ci := map (fun r => (r.1 * F64.of_Z N_i)%float) pos in
  let cj := map (fun r => (r.2 * F64.of_Z N_j)%float) pos in
  (* sample CR direction [radian] *)
  let '(us, g) := random_array n g in
  let phi := map (fun u => (u * 2 * np_pi)%float) us in
  (* sample path lengths [micron] *)
  match len_grid ← linspace min_cr_len max_cr_len grid_size;
        create_sampler (power_law_distribution (-4.33)%float) len_grid with
  | Raise e => (Raise e, g)
  | Ok inv_cdf_len =>
      let '(us, g) := random_array n g in
      match interp_call P inv_cdf_len us with
      | Raise e => (Raise e, g)
      | Ok len =>
          (* sample energy losses [eV/micron] *)
          match dEdx_grid ← linspace min_dEdx max_dEdx grid_size;
                create_sampler (moyal_distribution 1000 300) dEdx_grid with
          | Raise e => (Raise e, g)
          | Ok inv_cdf_dEdx =>
              let '(us, g) := random_array n g in
              match interp_call P inv_cdf_dEdx us with
              | Raise e => (Raise e, g)
              | Ok dEdx =>
                  (Ok {| cr_i := ci; cr_j := cj; cr_phi := phi;
                         cr_length := len; cr_dEdx := dEdx |}, g)
              end
          end
      end
  end.

End Sampling.

(** ** The detector image *)

(** A two-dimensional float64 array: its shape and its buffer, row by
    row. *)
Record ndarray : Type := {
  nrows : nat;
  ncols : nat;
  data : list float
}.

Definition with_data (a : ndarray) (d : list float) : ndarray :=
  {| nrows := nrows a; ncols := ncols a; data := d |}.

(** An index along an axis of length [n]: negative indices count from the
    end; anything else out of range raises IndexError. *)
Definition norm_index (n : nat) (z : Z) : result nat :=
  if ((z <? - Z.of_nat n) || (Z.of_nat n <=? z))%Z then Raise IndexError
  else Ok (Z.to_nat (if (z <? 0)%Z then z + Z.of_nat n else z)).

Definition flat_index (a : ndarray) (ij : Z * Z) : result nat :=
  r ← norm_index (nrows a) ij.1;
  c ← norm_index (ncols a) ij.2;
  Ok (r * ncols a + c)%nat.

Fixpoint flat_indices (a : ndarray) (ijs : list (Z * Z)) : result (list nat) :=
  match ijs with
  | [] => Ok []
  | ij :: ijs' =>
      k ← flat_index a ij;
      ks ← flat_indices a ijs';
      Ok (k :: ks)
  end.

(** Broadcasting a one-dimensional operand to length [n]. *)
Definition broadcast_to {A} (n : nat) (vals : list A) : result (list A) :=
  if decide (length vals = n) then Ok vals
  else match vals with
       | [v] => Ok (replicate n v)
       | _ => Raise ValueError
       end.

(** [a[ii, jj] = new] through flat indices: written in order, so the last
    value written to a repeated index stays. *)
Definition scatter (d : list float) (ks : list nat) (new : list float)
  : list float :=
  foldl (fun d kv => <[kv.1 := kv.2]> d) d (zip ks new).

(** The value read at a validated index. *)
Definition gather (d : list float) (ks : list nat) : list float :=
  map (fun k => default 0%float (d !! k)) ks.

(** ** [simulate_crs] *)

(** Entering the interactive debugger is the one interaction with the
    outside that the module has besides its arguments.  The model records
    it and goes on, as after the debugger's [continue]. *)
Inductive interaction : Set := PdbSetTrace.

Section Injection.
Context (P : platform).

(** What a call can change: the caller's image buffer, the generator, and
    the interactions started so far. *)
Record state : Type := {
  st_image : ndarray;
  st_rng : generator P;
  st_trace : list interaction
}.

Definition set_rng (st : state) (g : generator P) : state :=
  {| st_image := st_image st; st_rng := g; st_trace := st_trace st |}.
Definition set_image (st : state) (a : ndarray) : state :=
  {| st_image := a; st_rng := st_rng st; st_trace := st_trace st |}.
Definition log (st : state) (i : interaction) : state :=
  {| st_image := st_image st; st_rng := st_rng st;
     st_trace := st_trace st ++ [i] |}.

(** One event: start, end and counts per pixel. *)
Record event : Type := {
  ev_i0 : float; ev_j0 : float;
  ev_i1 : float; ev_j1 : float;
  ev_counts_per_pix : float
}.

(** [np.any((jj == 76) & (ii == 54))] *)
Definition hits_breakpoint (ii jj : list Z) : bool :=
  existsb (fun ij => (ij.2 =? 76)%Z && (ij.1 =? 54)%Z) (zip ii jj).

(** Lines 288-293, the body of the loop. *)
Definition inject_event (pixel_size pixel_depth : float) (ev : event)
    (st : state) : result unit * state :=
  match traverse (ev_i0 ev, ev_j0 ev) (ev_i1 ev, ev_j1 ev)
                 default_N default_N with
  | Raise e => (Raise e, st)
  | Ok (ii, jj, length_2d) =>
      if (pixel_size =? 0)%float then (Raise ZeroDivisionError, st) else
      let ratio := (pixel_depth / pixel_size)%float in
      let length_3d :=
        map (fun l => sqrt (F64.square ratio + F64.square l)%float)
            length_2d in
      (* image[ii, jj] += rng.poisson(counts_per_pix * length_3d) *)
      match flat_indices (st_image st) (zip ii jj) with
      | Raise e => (Raise e, st)
      | Ok ks =>
          let old := gather (data (st_image st)) ks in
          let lams :=
            map (fun l => (ev_counts_per_pix ev * l)%float) length_3d in
          match poisson_array P lams (st_rng st) with
          | (Raise e, g) => (Raise e, set_rng st g)
          | (Ok counts, g) =>
              let st := set_rng st g in
              match broadcast_to (length ks) (map F64.of_Z counts) with
              | Raise e => (Raise e, st)
              | Ok incr =>
                  let new := zip_with PrimFloat.add old incr in
                  let st :=
                    set_image st
                      (with_data (st_image st)
                         (scatter (data (st_image st)) ks new)) in
                  if hits_breakpoint ii jj
                  then (Ok (), log st PdbSetTrace)
                  else (Ok (), st)
              end
          end
      end
  end.

(** Lines 286-293, the loop: an exception ends it. *)
Fixpoint inject_events (pixel_size pixel_depth : float) (evs : list event)
    (st : state) : result unit * state :=
  match evs with
  | [] => (Ok (), st)
  | ev :: evs' =>
      match inject_event pixel_size pixel_depth ev st with
      | (Ok _, st') => inject_events pixel_size pixel_depth evs' st'
      | (Raise e, st') => (Raise e, st')
      end
  end.

(** [zip] of the five arrays of lines 286-287. *)
Fixpoint zip_events (i0 j0 i1 j1 c : list float) : list event :=
  match i0, j0, i1, j1, c with
  | a :: i0', b :: j0', a' :: i1', b' :: j1', k :: c' =>
      {| ev_i0 := a; ev_j0 := b; ev_i1 := a'; ev_j1 := b';
         ev_counts_per_pix := k |} :: zip_events i0' j0' i1' j1' c'
  | _, _, _, _, _ => []
  end.

(** Lines 279-284: the events of an exposure from the sampled
    parameters. *)
Definition events_of (N_i N_j : Z) (gain pixel_size : float)
    (p : cr_params) : list event :=
  let len := map (fun l => (l / pixel_size)%float) (cr_length p) in
  let ends (N : Z) (trig : float -> float) (c0 : list float) :=
    zip_with (fun c lt => np_clip 1 (F64.of_Z (N - 1)) (c + lt)%float) c0
      (zip_with (fun l a => (l * trig a)%float) len (cr_phi p)) in
  let cr_i1 := ends N_i (np_cos P) (cr_i p) in
  let cr_j1 := ends N_j (np_sin P) (cr_j p) in
  let counts := map (fun e => (e * pixel_size / gain)%float) (cr_dEdx p) in
  zip_events (cr_i p) (cr_j p) cr_i1 cr_j1 counts.

(** The whole call.  [rng = None] makes a generator from [seed]; the
    image returned is the buffer passed in ([im1], the copy of line 285,
    is never read). *)
Definition simulate_crs (image : ndarray)
    (time flux area gain pixel_size pixel_depth : float)
    (rng : option (generator P)) (seed : Z) : result unit * state :=
  let g := match rng with Some g => g | None => default_rng P seed end in
  let st := {| st_image := image; st_rng := g; st_trace := [] |} in
  let N_i := Z.of_nat (nrows image) in
  let N_j := Z.of_nat (ncols image) in
  match poisson_scalar P (flux * area * time)%float g with
  | (Raise e, g) => (Raise e, set_rng st g)
  | (Ok N_samples, g) =>
      match sample_cr_params P N_samples N_i N_j 10 10000 10 2000 10000 g with
      | (Raise e, g) => (Raise e, set_rng st g)
      | (Ok p, g) =>
          inject_events pixel_size pixel_depth
            (events_of N_i N_j gain pixel_size p) (set_rng st g)
      end
  end.

End Injection.

Arguments st_image {P} _.
Arguments st_rng {P} _.
Arguments st_trace {P} _.

(** ** A platform to run the model on

    A generator that replays recorded draws, series for the elementary
    functions, and the linear interpolant as SciPy builds and evaluates it
    with its default arguments ([kind='linear'], [bounds_error=True],
    [assume_sorted=False]). *)

Module Replay.
Local Open Scope float_scope.

Record tape : Type := {
  doubles : list float;   (* uniform draws still to come *)
  counts : list Z         (* Poisson draws still to come *)
}.

Definition draw (g : tape) : float * tape :=
  match doubles g with
  | [] => (0, g)
  | u :: us => (u, {| doubles := us; counts := counts g |})
  end.

(** A mean of zero gives zero; no draw is negative. *)
Definition draw_poisson (lam : float) (g : tape) : Z * tape :=
  if is_zero lam then (0%Z, g)
  else match counts g with
       | [] => (0%Z, g)
       | n :: ns => (Z.abs n, {| doubles := doubles g; counts := ns |})
       end.

(** A generator made from a seed: 16 uniform and 8 Poisson draws taken
    from a linear congruential sequence that starts at the seed, so that
    different seeds give different draws. *)
Fixpoint lcg (n : nat) (x : Z) : list Z :=
  match n with
  | O => []
  | S n' =>
      let x' := ((1103515245 * x + 12345) mod 2147483648)%Z in
      x' :: lcg n' x'
  end.

Definition fresh (seed : Z) : tape :=
  let xs := lcg 24 seed in
  {| doubles := map (fun x => F64.of_Z x / 2147483648) (take 16 xs);
     counts := map (fun x => 1 + (x / 65536) mod 3)%Z (drop 16 xs) |}.

Fixpoint iter_square (n : nat) (x : float) : float :=
  match n with
  | O => x
  | S n' => iter_square n' (x * x)
  end.

(** exp x = (exp (x / 2^20)) ^ (2^20), the inner one by its series. *)
Definition exp (x : float) : float :=
  let y := x / 1048576 in
  iter_square 20 (1 + y * (1 + y / 2 * (1 + y / 3 * (1 + y / 4)))).

(** Sum of t^(2k+1) / (2k+1) for k < n, from the k-th term on. *)
Fixpoint atanh_series (n : nat) (t2 pow k2 : float) : float :=
  match n with
  | O => 0
  | S n' => pow / k2 + atanh_series n' t2 (pow * t2) (k2 + 2)
  end.

Definition ln2 : float := 0.6931471805599453.

(** ln (m * 2^e) = 2 atanh ((m - 1) / (m + 1)) + e ln 2 *)
Definition ln (x : float) : float :=
  let '(m, e) := Z.frexp x in
  let t := (m - 1) / (m + 1) in
  2 * atanh_series 24 (t * t) t 1 + F64.of_Z e * ln2.

Definition power (x s : float) : float := exp (s * ln x).

(** Sum of the alternating series whose k-th term is [term], whose
    next factor divides by (d + 1) (d + 2). *)
Fixpoint trig_series (n : nat) (x2 term d : float) : float :=
  match n with
  | O => 0
  | S n' =>
      term + trig_series n' x2 (- term * x2 / ((d + 1) * (d + 2))) (d + 2)
  end.

Definition cos (x : float) : float := trig_series 30 (x * x) 1 0.
Definition sin (x : float) : float := trig_series 30 (x * x) x 1.

(** The interpolant keeps its two tables sorted by the first. *)
Record tables : Type := {
  interp_x : list float;
  interp_y : list float
}.

Definition table_le (p q : float * float) : Prop := sort_le p.1 q.1.
#[global] Instance table_le_dec : RelDecision table_le.
Proof. intros p q. unfold table_le, sort_le. apply _. Defined.

(** A stable sort, as [np.argsort(x, kind="mergesort")] is. *)
Fixpoint insert_row (p : float * float) (l : list (float * float))
  : list (float * float) :=
  match l with
  | [] => [p]
  | q :: l' => if decide (table_le p q) then p :: l else q :: insert_row p l'
  end.
Definition stable_sort (l : list (float * float)) : list (float * float) :=
  foldr insert_row [] l.

Definition build (x y : list float) : result tables :=
  let t := stable_sort (zip x y) in
  if decide (length x = length y) then
    match x with
    | [] => Raise ValueError
    | _ => Ok {| interp_x := map fst t; interp_y := map snd t |}
    end
  else Raise ValueError.

(** [np.interp] inside the range of the table. *)
Fixpoint interp_at (x : float) (t : list (float * float)) : float :=
  match t with
  | [] => nan
  | [p] => p.2
  | p :: (q :: _) as t' =>
      if x <? q.1 then
        if x =? p.1 then p.2
        else (q.2 - p.2) / (q.1 - p.1) * (x - p.1) + p.2
      else interp_at x t'
  end.

Definition eval (f : tables) (x_new : list float)
  : result (list float) :=
  let lo := hd nan (interp_x f) in
  let hi := List.last (interp_x f) nan in
  if existsb (fun v => v <? lo) x_new then Raise ValueError
  else if existsb (fun v => hi <? v) x_new then Raise ValueError
  else Ok (map (fun v => interp_at v (zip (interp_x f) (interp_y f))) x_new).

Definition env : platform := {|
  generator := tape;
  default_rng := fresh;
  next_double := draw;
  next_poisson := draw_poisson;
  np_exp := exp;
  np_power := power;
  np_cos := cos;
  np_sin := sin;
  interpolant := tables;
  interp1d := build;
  interp_call := eval
|}.

(** An image of zeros. *)
Definition zeros (r c : nat) : ndarray :=
  {| nrows := r; ncols := c; data := replicate (r * c) 0 |}.

End Replay.

(** ** What the specification measures on a [traverse] result *)

Definition trail_result : Type := result (list Z * list Z * list float).

(** The (pixel_i, pixel_j, chord_length) triples of a result. *)
Definition triples (r : trail_result) : list (Z * Z * float) :=
  match r with
  | Ok (ii, jj, lengths) => zip (zip ii jj) lengths
  | Raise _ => []
  end.

Definition pixels (r : trail_result) : list (Z * Z) :=
  match r with
  | Ok (ii, jj, _) => zip ii jj
  | Raise _ => []
  end.

Definition chord_sum (r : trail_result) : float :=
  match r with
  | Ok (_, _, lengths) => foldl PrimFloat.add 0%float lengths
  | Raise _ => 0%float
  end.

Definition euclid (a b : point) : float :=
  F64.hypot2 (b.1 - a.1, b.2 - a.2)%float.

(** [|x - y| <= 1e-9 * |y|] *)
Definition rel_close (x y : float) : bool :=
  (abs (x - y) <=? 1e-9 * abs y)%float.

Definition inside_grid (N_i N_j : float) (p : point) : bool :=
  negb (outside N_i N_j p).

Definition same_triples (r1 r2 : trail_result) : Prop :=
  forall t, t ∈ triples r1 <-> t ∈ triples r2.

(** A density that is zero, of either sign, on the whole grid. *)
Definition all_zero (l : list float) : Prop :=
  Forall (fun v => is_zero v = true) l.

Definition zero_density (x : list float) : list float :=
  map (fun _ => 0%float) x.

(** Recorded draws for one event that starts at (54.5, 76.5) on a
    100 x 100 image and runs one pixel along i. *)
Definition tape0 : Replay.tape :=
  {| Replay.doubles := [0.545; 0.765; 0; 0; 0]%float;
     Replay.counts := [1; 7; 9]%Z |}.

(** Recorded draws for one event that starts at (4097.95, 1.5) on a
    4100 x 2 image and runs one pixel along i. *)
Definition tape1 : Replay.tape :=
  {| Replay.doubles := [0.9995; 0.75; 0; 0; 0]%float;
     Replay.counts := [1; 5]%Z |}.

(** What [traverse] can return as a pixel index under the default
    bounds: 0 .. 4096, or the int64 that stands for NaN. *)
Definition index_bounded (i : Z) : Prop :=
  i = F64.int64_min \/ (0 <= i <= 4096)%Z.
Definition pixel_bounded (ij : Z * Z) : Prop :=
  index_bounded ij.1 /\ index_bounded ij.2.

(** An image whose shape fits NumPy's index type. *)
Definition shape_ok (a : ndarray) : Prop :=
  (Z.of_nat (nrows a) < 2 ^ 63)%Z /\ (Z.of_nat (ncols a) < 2 ^ 63)%Z.

Definition same_shape (a b : ndarray) : Prop :=
  nrows a = nrows b /\ ncols a = ncols b.

(** Pixel values: not negative (and so not NaN), and the order between
    the values of two buffers. *)
Definition nonneg (v : float) : Prop := (0 <=? v)%float = true.
Definition pixelwise_le (d d' : list float) : Prop :=
  Forall2 (fun v v' => (v <=? v')%float = true) d d'.

(** ** The driver

    Lines 298-308: [n] frames on one image.  Every call passes [flux],
    [area] and [t_exp] in the places of [time], [flux] and [area], and no
    generator, so every call seeds a new one with 47. *)
Section Driver.
Context (P : platform).

Definition frame (image : ndarray) : result unit * state P :=
  simulate_crs P image 8 0.168 3.04 3.8 10 5 None 47.

(** The loop: the outcome, the image and the interactions of all frames;
    an exception ends it. *)
Fixpoint frames (n : nat) (image : ndarray)
  : result unit * ndarray * list interaction :=
  match n with
  | O => (Ok (), image, [])
  | S n' =>
      match frame image with
      | (Ok _, st) =>
          let '(r, image', t) := frames n' (st_image st) in
          (r, image', st_trace st ++ t)
      | (Raise e, st) => (Raise e, st_image st, st_trace st)
      end
  end.

Definition main : result unit * ndarray * list interaction :=
  let n := Z.to_nat 4096 in
  frames (Z.to_nat 500)
    {| nrows := n; ncols := n; data := replicate (n * n) 0%float |}.

(** Two states that differ at most in the values of the pixels. *)
Definition same_but_pixels (st st' : state P) : Prop :=
  same_shape (st_image st) (st_image st') /\
  st_rng st = st_rng st' /\ st_trace st = st_trace st'.

End Driver.

(** An image without pixel (54, 76). *)
Definition lacks_breakpoint_pixel (a : ndarray) : Prop :=
  (nrows a <= 54)%nat \/ (ncols a <= 76)%nat.

(** NaN or an infinity. *)
Definition nan_or_inf (v : float) : Prop :=
  Prim2SF v = S754_nan \/ exists s, Prim2SF v = S754_infinity s.

(** ** Generators that give the same draws

    A relation between generator states that every draw keeps, and under
    which related states return equal values: two generators so related
    give the same draws from now on, whatever else distinguishes them. *)
Definition same_draws (P : platform)
    (R : generator P -> generator P -> Prop) : Prop :=
  (forall g g', R g g' ->
     (next_double P g).1 = (next_double P g').1 /\
     R (next_double P g).2 (next_double P g').2) /\
  (forall lam g g', R g g' ->
     (next_poisson P lam g).1 = (next_poisson P lam g').1 /\
     R (next_poisson P lam g).2 (next_poisson P lam g').2).

(** Two states with the same image and interactions, and generators that
    give the same draws. *)
Definition same_run {P : platform} (R : generator P -> generator P -> Prop)
    (st st' : state P) : Prop :=
  st_image st = st_image st' /\ st_trace st = st_trace st' /\
  R (st_rng st) (st_rng st').

(** On the replayed generator: two tapes that hold the same draws, up to
    the zeros a tape gives when it has run out. *)
Definition same_tape (t t' : Replay.tape) : Prop :=
  (forall k, List.nth k (Replay.doubles t) 0%float
             = List.nth k (Replay.doubles t') 0%float) /\
  (forall k, Z.abs (List.nth k (Replay.counts t) 0%Z)
             = Z.abs (List.nth k (Replay.counts t') 0%Z)).

(** A tape with one more zero at the end of each list. *)
Definition padded (t : Replay.tape) : Replay.tape :=
  {| Replay.doubles := Replay.doubles t ++ [0%float];
     Replay.counts := Replay.counts t ++ [0%Z] |}.

(** ** Facts about binary64 comparison *)

Lemma SFcompare_Lt_Gt x y :
  SFcompare x y = Some Lt -> SFcompare y x = Some Gt.
Proof.
  destruct x as [sx|sx| |sx mx ex], y as [sy|sy| |sy my ey];
    cbn; try discriminate; try (destruct sx; discriminate);
    try (destruct sy; discriminate);
    try (destruct sx, sy; (discriminate || reflexivity)).
  destruct sx, sy; try discriminate; try reflexivity.
  all: rewrite (Z.compare_antisym ex ey).
  all: destruct (ex ?= ey)%Z eqn:E; cbn; try discriminate; try reflexivity.
  all: change (PosDef.Pos.compare_cont Eq my mx) with (Pos.compare my mx).
  all: change (PosDef.Pos.compare_cont Eq mx my) with (Pos.compare mx my).
  all: rewrite (Pos.compare_antisym mx my).
  all: destruct (mx ?= my)%positive; cbn; intros H;
    (discriminate H || reflexivity).
Qed.

Lemma ltb_asym (x y : float) : (x <? y)%float = true -> (y <? x)%float = false.
Proof.
  rewrite !ltb_spec. unfold SFltb. intros H.
  destruct (SFcompare (Prim2SF x) (Prim2SF y)) as [[]|] eqn:E; try discriminate.
  now rewrite (SFcompare_Lt_Gt _ _ E).
Qed.

Lemma is_zero_SF x : is_zero x = true <-> exists s, Prim2SF x = S754_zero s.
Proof.
  unfold is_zero. rewrite FloatAxioms.eqb_spec.
  replace (Prim2SF zero) with (S754_zero false) by (vm_compute; reflexivity).
  destruct (Prim2SF x) as [s|s| |s m e]; cbn.
  - split; eauto.
  - destruct s; split; try discriminate; intros [? ?]; discriminate.
  - split; try discriminate; intros [? ?]; discriminate.
  - destruct s; split; try discriminate; intros [? ?]; discriminate.
Qed.

Lemma mul_zero_l x y :
  is_zero x = true ->
  Prim2SF (x * y)%float = S754_nan \/ is_zero (x * y)%float = true.
Proof.
  intros [s E]%is_zero_SF.
  destruct (Prim2SF (x * y)%float) eqn:Exy.
  - right. apply is_zero_SF. eauto.
  - exfalso. rewrite FloatAxioms.mul_spec, E in Exy. unfold SF64mul in Exy.
    destruct (Prim2SF y); cbn in Exy; discriminate.
  - now left.
  - exfalso. rewrite FloatAxioms.mul_spec, E in Exy. unfold SF64mul in Exy.
    destruct (Prim2SF y); cbn in Exy; discriminate.
Qed.

Lemma leb_not_nan x y : (x <=? y)%float = true -> Prim2SF y <> S754_nan.
Proof.
  rewrite FloatAxioms.leb_spec. intros H E. rewrite E in H. unfold SFleb in H.
  destruct (Prim2SF x); cbn in H; discriminate.
Qed.

Lemma digits2_size m : digits2_pos m = Pos.size m.
Proof. induction m; cbn; congruence. Qed.

Lemma valid_mantissa_lt x s m e :
  Prim2SF x = S754_finite s m e -> (Zpos m < 2 ^ 53)%Z.
Proof.
  intros E. pose proof (Prim2SF_valid x) as V. rewrite E in V.
  unfold valid_binary, bounded in V. apply andb_prop in V as [V _].
  unfold canonical_mantissa, fexp in V. apply Z.eqb_eq in V.
  rewrite digits2_size in V.
  pose proof (Pos.size_gt m) as G.
  assert (Hd : (Zpos (Pos.size m) <= 53)%Z).
  { unfold FloatOps.prec in V. lia. }
  apply Pos2Z.pos_lt_pos in G. rewrite Pos2Z.inj_pow in G.
  eapply Z.lt_le_trans; [exact G|].
  apply Z.pow_le_mono_r; lia.
Qed.

Lemma in_zrange z start n :
  (start <= z < start + Z.of_nat n)%Z -> In z (zrange start n).
Proof.
  revert start. induction n as [|n IH]; intros start Hz; [lia|].
  cbn [zrange]. destruct (Z.eq_dec start z) as [->|Hne]; [now left|].
  right. apply IH. lia.
Qed.

Lemma astype_of_Z_small z :
  (0 <= z <= 4096)%Z -> F64.astype_int (F64.of_Z z) = z.
Proof.
  intros Hz.
  assert (A : forallb (fun k => (F64.astype_int (F64.of_Z k) =? k)%Z)
                (zrange 0 (Z.to_nat 4097)) = true)
    by (vm_compute; reflexivity).
  rewrite forallb_forall in A.
  apply Z.eqb_eq, A, in_zrange. rewrite Z2Nat.id; lia.
Qed.

Lemma Prim2SF_0 : Prim2SF 0%float = S754_zero false.
Proof. vm_compute. reflexivity. Qed.
Lemma Prim2SF_default_N :
  Prim2SF default_N = S754_finite false 4503599627370496 (-40).
Proof. vm_compute. reflexivity. Qed.

Lemma shiftl_mantissa_bounded m e :
  (Zpos m < 2 ^ 53)%Z -> (e <= -40)%Z -> (e = -40 -> Zpos m <= 2 ^ 52)%Z ->
  (0 <= Z.shiftl (Zpos m) e <= 4096)%Z.
Proof.
  intros Hm He1 He2.
  rewrite Z.shiftl_div_pow2 by lia. split.
  - apply Z.div_pos; [lia|]. apply Z.pow_pos_nonneg; lia.
  - destruct (Z.eq_dec e (-40)%Z) as [->|Hne].
    + specialize (He2 eq_refl). change (- -40)%Z with 40%Z.
      apply Z.div_le_upper_bound; [reflexivity|].
      change (2 ^ 40 * 4096)%Z with (2 ^ 52)%Z. exact He2.
    + assert (H41 : (2 ^ 41 <= 2 ^ (- e))%Z) by (apply Z.pow_le_mono_r; lia).
      apply Z.div_le_upper_bound; [lia|].
      change (2 ^ 53)%Z with (2 ^ 41 * 4096)%Z in Hm.
      apply Z.lt_le_incl. eapply Z.lt_le_trans; [exact Hm|].
      apply Z.mul_le_mono_nonneg_r; [lia|exact H41].
Qed.

Lemma pixel_index_bounded x :
  (x <? 0)%float = false -> (default_N <? x)%float = false ->
  F64.astype_int (F64.floor x) = F64.int64_min \/
  (0 <= F64.astype_int (F64.floor x) <= 4096)%Z.
Proof.
  rewrite !FloatAxioms.ltb_spec, Prim2SF_0, Prim2SF_default_N.
  intros Hlo Hhi. unfold F64.floor, F64.floorZ.
  destruct (Prim2SF x) as [s|s| |s m e] eqn:E.
  - assert (Z0 : is_zero x = true) by (apply is_zero_SF; eauto).
    rewrite Z0. unfold F64.astype_int. rewrite E. right. lia.
  - left. unfold F64.astype_int. now rewrite E.
  - left. unfold F64.astype_int. now rewrite E.
  - destruct s; [discriminate Hlo|].
    assert (Z0 : is_zero x = false).
    { destruct (is_zero x) eqn:Z0; [|reflexivity].
      apply is_zero_SF in Z0 as [s Z0]. congruence. }
    rewrite Z0. right. unfold cond_Zopp.
    pose proof (valid_mantissa_lt _ _ _ _ E) as Hm.
    assert (He : (e <= -40)%Z /\ (e = -40 -> Zpos m <= 2 ^ 52)%Z).
    { unfold SFltb, SFcompare in Hhi.
      destruct (Z.compare_spec (-40) e) as [<-|?|?]; try discriminate.
      - split; [lia|]. intros _.
        change (PosDef.Pos.compare_cont Eq 4503599627370496 m)
          with (Pos.compare 4503599627370496 m) in Hhi.
        change (2 ^ 52)%Z with (Zpos 4503599627370496).
        destruct (4503599627370496 ?= m)%positive eqn:C.
        * apply Pos.compare_eq in C. rewrite <- C. reflexivity.
        * discriminate Hhi.
        * apply Pos.compare_gt_iff in C. apply Z.lt_le_incl.
          exact (Pos2Z.pos_lt_pos _ _ C).
      - split; lia. }
    destruct He as [He1 He2].
    pose proof (shiftl_mantissa_bounded m e Hm He1 He2) as Hz.
    replace (Z.abs (Z.shiftl (Zpos m) e) <? 9007199254740992)%Z with true
      by (symmetry; apply Z.ltb_lt; lia).
    rewrite astype_of_Z_small by exact Hz. exact Hz.
Qed.

Lemma Prim2SF_nan : Prim2SF nan = S754_nan.
Proof. vm_compute. reflexivity. Qed.

Lemma SF_nan_eq x : Prim2SF x = S754_nan -> x = nan.
Proof. intros E. apply Prim2SF_inj. now rewrite Prim2SF_nan. Qed.

Lemma add_zero a b :
  is_zero a = true -> is_zero b = true -> is_zero (a + b)%float = true.
Proof.
  intros [sa Ea]%is_zero_SF [sb Eb]%is_zero_SF. apply is_zero_SF.
  rewrite FloatAxioms.add_spec, Ea, Eb. destruct sa, sb; cbn; eauto.
Qed.

Lemma sub_zero a b :
  is_zero a = true -> is_zero b = true -> is_zero (a - b)%float = true.
Proof.
  intros [sa Ea]%is_zero_SF [sb Eb]%is_zero_SF. apply is_zero_SF.
  rewrite FloatAxioms.sub_spec, Ea, Eb. destruct sa, sb; cbn; eauto.
Qed.

Lemma div_zero_zero a b :
  is_zero a = true -> is_zero b = true -> (a / b)%float = nan.
Proof.
  intros [sa Ea]%is_zero_SF [sb Eb]%is_zero_SF. apply SF_nan_eq.
  rewrite FloatAxioms.div_spec, Ea, Eb. reflexivity.
Qed.

Lemma np_maximum_cases a b : np_maximum a b = a \/ np_maximum a b = b.
Proof.
  unfold np_maximum.
  destruct (is_nan a), (is_nan b), (a <? b)%float; auto.
Qed.

Lemma mul_nan_l x y : Prim2SF x = S754_nan -> Prim2SF (x * y)%float = S754_nan.
Proof. intros E. rewrite FloatAxioms.mul_spec, E. reflexivity. Qed.

Lemma poisson_lam_ok_not_nan lam :
  poisson_lam_ok lam = true -> Prim2SF lam <> S754_nan.
Proof.
  unfold poisson_lam_ok. intros [H _]%andb_prop. exact (leb_not_nan _ _ H).
Qed.

Lemma zero_flux_mean flux area time :
  is_zero flux = true -> poisson_lam_ok (flux * area * time)%float = true ->
  is_zero (flux * area * time)%float = true.
Proof.
  intros Hf Hok. apply poisson_lam_ok_not_nan in Hok.
  destruct (mul_zero_l flux area Hf) as [Hn|Hz].
  - exfalso. apply Hok. now apply mul_nan_l.
  - destruct (mul_zero_l _ time Hz) as [Hn|Hz']; [contradiction|assumption].
Qed.

(** ** Rounding in binary64: a sum of non-negative values is not below
    its terms *)

Section Rounding.
Local Open Scope Z_scope.

(** *** Digits and shifts of the reference implementation *)

Lemma digits_bounds m :
  2 ^ (Zpos (digits2_pos m) - 1) <= Zpos m < 2 ^ Zpos (digits2_pos m).
Proof.
  rewrite digits2_size.
  pose proof (Pos.size_gt m) as G. pose proof (Pos.size_le m) as L.
  apply Pos2Z.pos_lt_pos in G. apply Pos2Z.pos_le_pos in L.
  rewrite Pos2Z.inj_pow in G. rewrite Pos2Z.inj_pow in L.
  change (Zpos m~0) with (2 * Zpos m) in L.
  split; [|exact G].
  set (k := Zpos (Pos.size m) - 1).
  assert (E : Zpos (Pos.size m) = Z.succ k)
    by (unfold k; rewrite Z.sub_1_r, Z.succ_pred; reflexivity).
  assert (Hk : 0 <= k) by (unfold k; clear; lia).
  rewrite E, Z.pow_succ_r in L by exact Hk.
  clear -L. lia.
Qed.

Lemma digits_mono m m' :
  Zpos m <= Zpos m' -> Zpos (digits2_pos m) <= Zpos (digits2_pos m').
Proof.
  intros H. pose proof (digits_bounds m) as [L _].
  pose proof (digits_bounds m') as [_ U].
  assert (Hlt : 2 ^ (Zpos (digits2_pos m) - 1) < 2 ^ Zpos (digits2_pos m')) by lia.
  apply Z.pow_lt_mono_r_iff in Hlt; lia.
Qed.

Lemma iter_xO_val m d : Zpos (Pos.iter xO m d) = Zpos m * 2 ^ Zpos d.
Proof.
  revert m. induction d using Pos.peano_ind; intros m.
  - change (Pos.iter xO m 1) with (xO m). change (2 ^ 1) with 2. lia.
  - rewrite Pos.iter_succ, Pos2Z.inj_xO, IHd, Pos2Z.inj_succ,
      Z.pow_succ_r by lia. lia.
Qed.

Lemma iter_xO_digits m d :
  Zpos (digits2_pos (Pos.iter xO m d)) = Zpos (digits2_pos m) + Zpos d.
Proof.
  revert m. induction d using Pos.peano_ind; intros m.
  - change (Pos.iter xO m 1) with (xO m). cbn [digits2_pos]. lia.
  - rewrite Pos.iter_succ. cbn [digits2_pos]. rewrite Pos2Z.inj_succ, IHd. lia.
Qed.

(** [shl_align] keeps the value and the position of the leading bit, and
    gives the smaller exponent. *)
Lemma shl_align_spec m e e' :
  let '(m1, e1) := shl_align m e e' in
  e1 = Z.min e e' /\ Zpos m1 = Zpos m * 2 ^ (e - e1) /\
  Zpos (digits2_pos m1) + e1 = Zpos (digits2_pos m) + e.
Proof.
  unfold shl_align. destruct (e' - e) as [|d|d] eqn:E.
  - replace (e - e) with 0 by lia. rewrite Z.pow_0_r. lia.
  - replace (e - e) with 0 by lia. rewrite Z.pow_0_r. lia.
  - rewrite iter_xO_val, iter_xO_digits.
    replace (e - e') with (Zpos d) by lia. lia.
Qed.

Lemma shr_1_m r : 0 <= shr_m r -> shr_m (shr_1 r) = shr_m r / 2.
Proof.
  destruct r as [m r s]. cbn [shr_m]. intros Hm. unfold shr_1.
  destruct m as [|[p|p|]|p]; cbn [shr_m]; try reflexivity.
  - apply Z.div_unique with 1; lia.
  - apply Z.div_unique with 0; lia.
  - lia.
Qed.

Lemma shr_1_nonneg r : 0 <= shr_m r -> 0 <= shr_m (shr_1 r).
Proof. intros H. rewrite shr_1_m by exact H. apply Z.div_pos; lia. Qed.

Lemma pow2_xO p : 2 ^ Zpos p~0 = 2 ^ Zpos p * 2 ^ Zpos p.
Proof.
  replace (Zpos p~0) with (Zpos p + Zpos p) by lia.
  apply Z.pow_add_r; lia.
Qed.

Lemma pow2_xI p : 2 ^ Zpos p~1 = 2 * (2 ^ Zpos p * 2 ^ Zpos p).
Proof.
  replace (Zpos p~1) with (Z.succ (Zpos p + Zpos p)) by lia.
  rewrite Z.pow_succ_r, Z.pow_add_r by lia. reflexivity.
Qed.

Lemma pow2_pos n : 0 < 2 ^ Zpos n.
Proof. apply Z.pow_pos_nonneg; lia. Qed.

Lemma iter_shr_1 p r :
  0 <= shr_m r ->
  shr_m (SpecFloat.iter_pos shr_1 p r) = shr_m r / 2 ^ Zpos p.
Proof.
  revert r. induction p as [p IH|p IH|]; intros r Hr;
    cbn [SpecFloat.iter_pos].
  - assert (H1 := shr_1_nonneg r Hr).
    assert (H2 : 0 <= shr_m (SpecFloat.iter_pos shr_1 p (shr_1 r))).
    { rewrite IH by exact H1. apply Z.div_pos; [exact H1|apply pow2_pos]. }
    rewrite IH by exact H2. rewrite IH by exact H1. rewrite shr_1_m by exact Hr.
    pose proof (pow2_pos p) as Hp.
    rewrite !Z.div_div by lia. rewrite pow2_xI. f_equal.
  - assert (H2 : 0 <= shr_m (SpecFloat.iter_pos shr_1 p r)).
    { rewrite IH by exact Hr. apply Z.div_pos; [exact Hr|apply pow2_pos]. }
    rewrite IH by exact H2. rewrite IH by exact Hr.
    pose proof (pow2_pos p) as Hp.
    rewrite Z.div_div by lia. rewrite pow2_xO. reflexivity.
  - rewrite shr_1_m by exact Hr. reflexivity.
Qed.

(** [shr] divides the mantissa by 2^n, rounding down, and adds n to the
    exponent (nothing for n <= 0). *)
Lemma shr_spec r e n :
  0 <= shr_m r ->
  shr_m (shr r e n).1 = shr_m r / 2 ^ Z.max 0 n /\
  (shr r e n).2 = e + Z.max 0 n.
Proof.
  intros Hr. unfold shr. destruct n as [|p|p]; cbn [fst snd].
  - change (Z.max 0 0) with 0. rewrite Z.pow_0_r, Z.div_1_r. lia.
  - rewrite iter_shr_1 by exact Hr. replace (Z.max 0 (Zpos p)) with (Zpos p) by lia.
    lia.
  - replace (Z.max 0 (Zneg p)) with 0 by lia. rewrite Z.pow_0_r, Z.div_1_r. lia.
Qed.

Lemma shr_record_of_loc_m m l : shr_m (shr_record_of_loc m l) = m.
Proof. destruct l as [|[]]; reflexivity. Qed.

Lemma fexp_eq e : fexp prec emax e = Z.max (e - 53) (-1074).
Proof. reflexivity. Qed.

Lemma shr_fexp_spec m e l :
  0 <= m ->
  let n := Z.max 0 (fexp prec emax (Zdigits2 m + e) - e) in
  shr_m (shr_fexp prec emax m e l).1 = m / 2 ^ n /\
  (shr_fexp prec emax m e l).2 = e + n.
Proof.
  intros Hm n. unfold shr_fexp.
  pose proof (shr_spec (shr_record_of_loc m l) e
                (fexp prec emax (Zdigits2 m + e) - e)) as H.
  rewrite shr_record_of_loc_m in H. exact (H Hm).
Qed.

Lemma round_nearest_even_bounds m l :
  m <= round_nearest_even m l <= m + 1.
Proof.
  unfold round_nearest_even. destruct l as [|[]]; try lia.
  destruct (Z.even m); lia.
Qed.

Lemma div_pow2_lower x d :
  53 <= d -> 2 ^ (d - 1) <= x -> 2 ^ 52 <= x / 2 ^ (d - 53).
Proof.
  intros Hd Hx. apply Z.div_le_lower_bound.
  - apply Z.pow_pos_nonneg; lia.
  - rewrite <- Z.pow_add_r by lia.
    replace (d - 53 + 52) with (d - 1) by lia. exact Hx.
Qed.

(** The outcome of rounding a positive mantissa: the mantissa [m3] and
    exponent [e3] before the final packing. *)
Lemma binary_round_aux_pos mz ez :
  exists m3 e3,
    binary_round_aux prec emax false (Zpos mz) ez loc_Exact
    = match m3 with
      | Z0 => S754_zero false
      | Zpos m => if e3 <=? emax - prec then S754_finite false m e3
                  else S754_infinity false
      | Zneg _ => S754_nan
      end /\
    0 <= m3 /\
    (forall mx ex, bounded prec emax mx ex = true -> ez <= ex ->
       Zpos mx * 2 ^ (ex - ez) <= Zpos mz ->
       0 < m3 /\ (ex < e3 \/ (ex = e3 /\ Zpos mx <= m3))).
Proof.
  unfold binary_round_aux.
  pose proof (shr_fexp_spec (Zpos mz) ez loc_Exact ltac:(lia)) as [Hm1 He1].
  destruct (shr_fexp prec emax (Zpos mz) ez loc_Exact) as [mrs1 e1].
  cbn [fst snd] in Hm1, He1.
  set (m2 := round_nearest_even (shr_m mrs1) (loc_of_shr_record mrs1)).
  pose proof (round_nearest_even_bounds (shr_m mrs1) (loc_of_shr_record mrs1))
    as Hm2. fold m2 in Hm2.
  assert (Hm1nn : 0 <= shr_m mrs1).
  { rewrite Hm1. apply Z.div_pos; [lia|]. apply Z.pow_pos_nonneg; lia. }
  pose proof (shr_fexp_spec m2 e1 loc_Exact ltac:(lia)) as [Hm3 He3].
  destruct (shr_fexp prec emax m2 e1 loc_Exact) as [mrs3 e3].
  cbn [fst snd] in Hm3, He3.
  exists (shr_m mrs3), e3. split; [reflexivity|].
  assert (Hm3nn : 0 <= shr_m mrs3).
  { rewrite Hm3. apply Z.div_pos; [lia|]. apply Z.pow_pos_nonneg; lia. }
  split; [exact Hm3nn|].
  intros mx ex Hb Hez Hge.
  (* the canonical exponent of x *)
  apply andb_prop in Hb as [Hc _]. unfold canonical_mantissa in Hc.
  apply Z.eqb_eq in Hc. rewrite fexp_eq in Hc.
  pose proof (digits_bounds mx) as [Lx Ux].
  pose proof (digits_bounds mz) as [Lz Uz].
  set (dx := Zpos (digits2_pos mx)) in *.
  set (dz := Zpos (digits2_pos mz)) in *.
  assert (Hdx : 0 < dx) by (unfold dx; lia).
  assert (Hdz : 0 < dz) by (unfold dz; lia).
  (* the leading bit of z is not below that of x *)
  assert (HD : dx + ex <= dz + ez).
  { assert (Hp : 2 ^ (dx - 1 + (ex - ez)) < 2 ^ dz).
    { rewrite Z.pow_add_r by lia.
      eapply Z.le_lt_trans; [|exact Uz].
      eapply Z.le_trans; [|exact Hge].
      apply Z.mul_le_mono_nonneg_r; [apply Z.pow_nonneg; lia|exact Lx]. }
    apply Z.pow_lt_mono_r_iff in Hp; lia. }
  rewrite fexp_eq in Hm1, He1. cbn [Zdigits2] in Hm1, He1. fold dz in Hm1, He1.
  rewrite fexp_eq in Hm3, He3.
  (* the first shift leaves a mantissa that is positive, and at least
     that of x when the exponents agree *)
  assert (H1 : 0 < shr_m mrs1 /\ ex <= e1 /\ (ex = e1 -> Zpos mx <= shr_m mrs1)).
  { destruct (Z.eq_dec e1 ex) as [Ee|Ne].
    - assert (En : Z.max 0 (Z.max (dz + ez - 53) (-1074) - ez) = ex - ez) by lia.
      rewrite En in Hm1.
      assert (Hq : Zpos mx <= shr_m mrs1).
      { rewrite Hm1. apply Z.div_le_lower_bound.
        - apply Z.pow_pos_nonneg; lia.
        - rewrite Z.mul_comm. exact Hge. }
      split; [lia|]. split; [lia|]. intros _. exact Hq.
    - assert (En : Z.max 0 (Z.max (dz + ez - 53) (-1074) - ez) = dz - 53) by lia.
      rewrite En in Hm1.
      assert (Hq : 2 ^ 52 <= shr_m mrs1).
      { rewrite Hm1. apply div_pow2_lower; [lia|exact Lz]. }
      assert (0 < 2 ^ 52) by (apply Z.pow_pos_nonneg; lia).
      split; [lia|]. split; [lia|]. intros E. lia. }
  destruct H1 as (Hpos1 & Hle1 & Heq1).
  assert (Hpos2 : 0 < m2) by lia.
  destruct m2 as [|m2p|m2p] eqn:Em2; try lia.
  cbn [Zdigits2] in Hm3, He3.
  pose proof (digits_bounds m2p) as [L2 U2].
  set (d2 := Zpos (digits2_pos m2p)) in *.
  destruct (Z.eq_dec e3 e1) as [E3|N3].
  - assert (En : Z.max 0 (Z.max (d2 + e1 - 53) (-1074) - e1) = 0) by lia.
    rewrite En, Z.pow_0_r, Z.div_1_r in Hm3. split; [lia|].
    destruct (Z.eq_dec ex e1) as [E|N]; [right|left; lia].
    specialize (Heq1 E). split; lia.
  - assert (En : Z.max 0 (Z.max (d2 + e1 - 53) (-1074) - e1) = d2 - 53) by lia.
    rewrite En in Hm3.
    assert (Hq : 2 ^ 52 <= shr_m mrs3).
    { rewrite Hm3. apply div_pow2_lower; [lia|exact L2]. }
    assert (0 < 2 ^ 52) by (apply Z.pow_pos_nonneg; lia).
    split; [lia|]. left. lia.
Qed.

Lemma SFleb_finite_pos mx ex m e :
  ex < e \/ (ex = e /\ Zpos mx <= Zpos m) ->
  SFleb (S754_finite false mx ex) (S754_finite false m e) = true.
Proof.
  intros H. unfold SFleb, SFcompare.
  destruct (Z.compare_spec ex e) as [E|L|G]; [|reflexivity|lia].
  change (PosDef.Pos.compare_cont Eq mx m) with (Pos.compare mx m).
  destruct (Pos.compare_spec mx m) as [?|?|G]; try reflexivity.
  apply Pos2Z.pos_lt_pos in G. lia.
Qed.

(** Rounding a positive value gives a non-negative float that is not
    below any representable value it dominates. *)
Lemma binary_round_pos m e :
  SFleb (S754_zero false) (binary_round prec emax false m e) = true /\
  (forall mx ex, bounded prec emax mx ex = true -> e <= ex ->
     Zpos mx * 2 ^ (ex - e) <= Zpos m ->
     SFleb (S754_finite false mx ex) (binary_round prec emax false m e) = true).
Proof.
  unfold binary_round.
  pose proof (shl_align_spec m e (fexp prec emax (Zpos (digits2_pos m) + e)))
    as Hs.
  destruct (shl_align m e _) as [mz ez]. destruct Hs as (Hez & Hmz & _).
  destruct (binary_round_aux_pos mz ez) as (m3 & e3 & -> & Hnn & Hge).
  split.
  - destruct m3 as [|p|p]; [reflexivity| |lia].
    destruct (e3 <=? emax - prec); reflexivity.
  - intros mx ex Hb He Hle.
    destruct (Hge mx ex Hb) as [Hpos Hcmp]; [lia| |].
    { rewrite Hmz.
      replace (ex - ez) with ((ex - e) + (e - ez)) by lia.
      rewrite Z.pow_add_r by lia. rewrite Z.mul_assoc.
      apply Z.mul_le_mono_nonneg_r; [apply Z.pow_nonneg; lia|exact Hle]. }
    destruct m3 as [|p|p]; try lia.
    destruct (e3 <=? emax - prec); [|reflexivity].
    now apply SFleb_finite_pos.
Qed.

Lemma SFadd_finite_ge mx ex my ey :
  bounded prec emax mx ex = true ->
  SFleb (S754_finite false mx ex)
    (SFadd prec emax (S754_finite false mx ex) (S754_finite false my ey))
  = true.
Proof.
  intros Hb. unfold SFadd. cbn [cond_Zopp].
  pose proof (shl_align_spec mx ex (Z.min ex ey)) as Hx.
  pose proof (shl_align_spec my ey (Z.min ex ey)) as Hy.
  destruct (shl_align mx ex _) as [mx' ex'].
  destruct (shl_align my ey _) as [my' ey'].
  destruct Hx as (Hex & Hmx & _). cbn [fst].
  change (Zpos mx' + Zpos my') with (Zpos (mx' + my')).
  cbn [binary_normalize].
  apply (binary_round_pos (mx' + my') (Z.min ex ey)); [exact Hb|lia|].
  rewrite Pos2Z.inj_add, Hmx.
  replace (ex - ex') with (ex - Z.min ex ey) by lia. lia.
Qed.

Lemma SFleb_refl_nonneg x :
  SFleb (S754_zero false) x = true -> SFleb x x = true.
Proof.
  destruct x as [s|[]| |[] m e]; try discriminate; try reflexivity.
  intros _. apply SFleb_finite_pos. right. lia.
Qed.

Lemma SFleb_finite_pos_inv mx ex m e :
  SFleb (S754_finite false mx ex) (S754_finite false m e) = true ->
  ex < e \/ (ex = e /\ Zpos mx <= Zpos m).
Proof.
  unfold SFleb, SFcompare.
  destruct (Z.compare_spec ex e) as [E|L|G]; [|lia|discriminate].
  change (PosDef.Pos.compare_cont Eq mx m) with (Pos.compare mx m).
  destruct (Pos.compare_spec mx m) as [->|L|G]; try discriminate; intros _.
  - right. lia.
  - right. apply Pos2Z.pos_lt_pos in L. lia.
Qed.

Lemma SFleb_trans_nonneg x y z :
  SFleb (S754_zero false) x = true ->
  SFleb x y = true -> SFleb y z = true -> SFleb x z = true.
Proof.
  destruct x as [sx|[]| |[] mx ex]; try discriminate; intros _;
    destruct y as [sy|[]| |[] my ey]; try discriminate; intros Hxy;
    destruct z as [sz|[]| |[] mz ez]; try discriminate; intros Hyz;
    try reflexivity.
  apply SFleb_finite_pos_inv in Hxy, Hyz. apply SFleb_finite_pos. lia.
Qed.

Local Open Scope float_scope.

Lemma leb_trans_nonneg a b c :
  (0 <=? a) = true -> (a <=? b) = true -> (b <=? c) = true ->
  (a <=? c) = true.
Proof.
  rewrite !FloatAxioms.leb_spec, Prim2SF_0. apply SFleb_trans_nonneg.
Qed.

Lemma add_nonneg_ge x y :
  (0 <=? x) = true -> (0 <=? y) = true -> (x <=? x + y) = true.
Proof.
  rewrite !FloatAxioms.leb_spec, FloatAxioms.add_spec, Prim2SF_0.
  pose proof (Prim2SF_valid x) as V. unfold SF64add.
  destruct (Prim2SF x) as [sx|[]| |[] mx ex]; try discriminate; intros _;
    destruct (Prim2SF y) as [sy|[]| |[] my ey]; try discriminate; intros _;
    try reflexivity.
  - destruct sx, sy; reflexivity.
  - cbn [SFadd]. apply SFleb_refl_nonneg. reflexivity.
  - now apply SFadd_finite_ge.
Qed.

Lemma of_Z_nonneg n : (0 <= n)%Z -> (0 <=? F64.of_Z n) = true.
Proof.
  intros Hn. unfold F64.of_Z.
  destruct (n <? 0)%Z eqn:E; [apply Z.ltb_lt in E; lia|].
  rewrite FloatAxioms.leb_spec, FloatAxioms.of_uint63_spec, Prim2SF_0.
  pose proof (Uint63.to_Z_bounded (Uint63.of_Z n)) as [Hb _].
  destruct (Uint63.to_Z (Uint63.of_Z n)) as [|p|p]; [reflexivity| |lia].
  cbn [binary_normalize]. apply binary_round_pos.
Qed.

End Rounding.

(** ** Claims on [traverse] *)

(** In the branch taken when the last crossing sits on a grid point the
    function never reaches a normal return. *)
Lemma traverse_grid_point_raises a b N_i N_j cs :
  (let '((i0, j0), (i1, j1)) := canonical a b in
   surviving_crossings (i0, j0) (i1 - i0) (j1 - j0) N_i N_j) = Ok cs ->
  (1 < length cs)%nat ->
  (let d := frac_part (List.last cs (0, 0)%float) in
   F64.isclose0 d.1 && F64.isclose0 d.2) = true ->
  traverse a b N_i N_j = Raise UnboundLocalError.
Proof.
  unfold traverse. destruct (canonical a b) as [[i0 j0] [i1 j1]].
  intros -> Hlen Hclose. cbn. rewrite decide_True by done.
  cbn in Hclose. now rewrite Hclose.
Qed.

(** C1. The chord lengths of a trail inside the grid are claimed to add up
    to the distance between its ends.  On the horizontal trail from
    (0, 0.5) to (2, 0.5) the function returns the chords 1, 1 and 0.5:
    their sum is 2.5 and the distance is 2. *)
Theorem C1_chord_sum_differs :
  let a := (0, 0.5)%float in
  let b := (2, 0.5)%float in
  let r := traverse a b default_N default_N in
  inside_grid default_N default_N a = true /\
  inside_grid default_N default_N b = true /\
  r = Ok ([0; 1; 2]%Z, [0; 0; 0]%Z, [1; 1; 0.5]%float) /\
  chord_sum r = 2.5%float /\
  euclid a b = 2%float /\
  rel_close (chord_sum r) (euclid a b) = false.
Proof. vm_compute. repeat split. Qed.

(** C2. A trail whose last crossing is an exact grid point is claimed to
    return without that last segment.  From (0, 0) to (2, 0) the last
    crossing is (2, 0); the function raises UnboundLocalError. *)
Theorem C2_grid_point_raises :
  traverse (0, 0)%float (2, 0)%float default_N default_N
  = Raise UnboundLocalError.
Proof. vm_compute. reflexivity. Qed.

(** C4. No pixel is claimed to appear twice in a result.  From (0.5, 0.25)
    to (2.5, 1.75) the pixel (1, 1) is returned twice. *)
Theorem C4_pixel_repeated :
  let r := traverse (0.5, 0.25)%float (2.5, 1.75)%float default_N default_N in
  pixels r = [(0, 0); (1, 1); (1, 1); (2, 1)]%Z /\ ~ NoDup (pixels r).
Proof.
  assert (E : pixels (traverse (0.5, 0.25)%float (2.5, 1.75)%float
                        default_N default_N)
              = [(0, 0); (1, 1); (1, 1); (2, 1)]%Z) by (vm_compute; reflexivity).
  cbv zeta. rewrite E. split; [reflexivity|].
  intros H. apply NoDup_cons_1_2 in H. apply NoDup_cons_1_1 in H.
  apply H. left.
Qed.

(** C5. Swapping the ends is claimed to leave the set of triples
    unchanged.  The vertical trail between (0, 0.25) and (0, 1.75) lies
    0.75 in pixel (0, 0) and 0.75 in pixel (0, 1).  Started from
    (0, 0.25) the function returns the chords 1 and 0.75, started from
    (0, 1.75) the chords 1 and 0.25: with equal i-coordinates the two
    orders start from different ends, and the last chord is the
    fractional part of the last crossing (the defect of C1), which is
    measured from the end the walk started at. *)
Theorem C5_swap_changes_triples :
  let a := (0, 0.25)%float in
  let b := (0, 1.75)%float in
  triples (traverse a b default_N default_N)
  = [(0%Z, 0%Z, 1%float); (0%Z, 1%Z, 0.75%float)] /\
  triples (traverse b a default_N default_N)
  = [(0%Z, 0%Z, 1%float); (0%Z, 1%Z, 0.25%float)] /\
  ~ same_triples (traverse a b default_N default_N)
                 (traverse b a default_N default_N).
Proof.
  assert (E1 : triples (traverse (0, 0.25)%float (0, 1.75)%float
                          default_N default_N)
               = [(0%Z, 0%Z, 1%float); (0%Z, 1%Z, 0.75%float)]) by (vm_compute; reflexivity).
  assert (E2 : triples (traverse (0, 1.75)%float (0, 0.25)%float
                          default_N default_N)
               = [(0%Z, 0%Z, 1%float); (0%Z, 1%Z, 0.25%float)]) by (vm_compute; reflexivity).
  cbv zeta. split; [exact E1|]. split; [exact E2|].
  unfold same_triples. rewrite E1, E2. intros H.
  destruct (H (0%Z, 1%Z, 0.75%float)) as [H1 _].
  assert (Hin : (0%Z, 1%Z, 0.75%float) ∈ [(0%Z, 0%Z, 1%float); (0%Z, 1%Z, 0.75%float)])
    by (right; left).
  specialize (H1 Hin).
  apply elem_of_cons in H1 as [H1|H1]; [discriminate H1|].
  apply elem_of_cons in H1 as [H1|H1]; [|inversion H1].
  apply (f_equal (fun t => PrimFloat.eqb t.2 0.25)) in H1.
  vm_compute in H1. discriminate H1.
Qed.

(** When the i-coordinates of the two ends differ, both orders are
    canonicalised to the same pair, and the two calls return the same
    result. *)
Lemma swap_same_result_when_i_differs (a b : point) (N_i N_j : float) :
  (a.1 <? b.1)%float = true \/ (b.1 <? a.1)%float = true ->
  traverse a b N_i N_j = traverse b a N_i N_j.
Proof.
  intros H.
  assert (E : canonical a b = canonical b a).
  { unfold canonical.
    destruct H as [H|H]; rewrite H, (ltb_asym _ _ H); reflexivity. }
  unfold traverse. now rewrite E.
Qed.

(** ** Pixels returned under the default bounds *)

Lemma zip_map_fst_snd {A B} (l : list (A * B)) :
  zip (map fst l) (map snd l) = l.
Proof. induction l as [|[a b] l IH]; cbn; [reflexivity|]. now rewrite IH. Qed.

Lemma surviving_crossings_inside o di dj N_i N_j cs :
  surviving_crossings o di dj N_i N_j = Ok cs ->
  Forall (fun c => outside N_i N_j c = false) cs.
Proof.
  unfold surviving_crossings.
  destruct (crossings_along o di 1 (dj / di)) as [ci|e]; [|discriminate].
  destruct (crossings_along o dj (di / dj) 1) as [cj|e]; [|discriminate].
  cbn. intros [= <-]. apply Forall_forall. intros c Hc.
  apply list_elem_of_filter in Hc as [Hc _].
  apply Is_true_true in Hc. now apply negb_true_iff in Hc.
Qed.

Lemma pixel_of_bounded c :
  outside default_N default_N c = false -> pixel_bounded (pixel_of c).
Proof.
  unfold outside. intros H.
  apply orb_false_elim in H as [H H4].
  apply orb_false_elim in H as [H H3].
  apply orb_false_elim in H as [H1 H2].
  split; cbn; now apply pixel_index_bounded.
Qed.

Lemma traverse_pixels_bounded a b ii jj lengths :
  traverse a b default_N default_N = Ok (ii, jj, lengths) ->
  Forall pixel_bounded (zip ii jj).
Proof.
  unfold traverse. destruct (canonical a b) as [[i0 j0] [i1 j1]].
  destruct (surviving_crossings _ _ _ _ _) as [cs|e] eqn:Es; [|discriminate].
  apply surviving_crossings_inside in Es. cbn.
  assert (Hb : Forall pixel_bounded (map pixel_of cs)).
  { apply Forall_forall. intros ij Hin.
    apply list_elem_of_In, in_map_iff in Hin as [c [<- Hc]].
    apply pixel_of_bounded. rewrite Forall_forall in Es.
    now apply Es, list_elem_of_In. }
  destruct (decide _); [destruct (_ && _); [discriminate|]|];
    intros [= <- <- _]; now rewrite zip_map_fst_snd.
Qed.

(** ** Claim on [create_sampler] *)

Lemma np_max_zero l a : is_zero a = true -> all_zero l -> is_zero (np_max a l) = true.
Proof.
  unfold np_max. intros Ha Hl. revert a Ha.
  induction Hl as [|b l Hb Hl IH]; intros a Ha; cbn; [exact Ha|].
  apply IH. destruct (np_maximum_cases a b) as [->| ->]; assumption.
Qed.

Lemma cumsum_from_zero l a :
  is_zero a = true -> all_zero l -> all_zero (cumsum_from a l).
Proof.
  intros Ha Hl. revert a Ha.
  induction Hl as [|b l Hb Hl IH]; intros a Ha; cbn; constructor.
  - now apply add_zero.
  - apply IH. now apply add_zero.
Qed.

Lemma cumsum_zero l : all_zero l -> all_zero (cumsum l).
Proof.
  destruct 1 as [|b l Hb Hl]; cbn; constructor; [assumption|].
  now apply cumsum_from_zero.
Qed.

Lemma map_div_zero m l :
  is_zero m = true -> all_zero l ->
  map (fun c => (c / m)%float) l = map (fun _ => nan) l.
Proof.
  intros Hm Hl. induction Hl as [|c l Hc Hl IH]; cbn; [reflexivity|].
  now rewrite IH, (div_zero_zero c m).
Qed.

(** C3, amended: for a density that is zero on a non-empty grid,
    [create_sampler] raises nothing itself: the cumulative table is 0 / 0,
    NaN in every entry, and the result is whatever [interp1d] makes of
    that table. *)
Theorem C3_zero_density_passes_nan (P : platform) pdf x :
  pdf x <> [] -> all_zero (pdf x) ->
  create_sampler P pdf x = interp1d P (map (fun _ => nan) (pdf x)) x.
Proof.
  intros Hne Hz. unfold create_sampler.
  destruct (pdf x) as [|y0 ys] eqn:Ey; [congruence|].
  assert (Hy0 : is_zero y0 = true) by (inversion Hz; assumption).
  assert (Hc : all_zero (map (fun c => (c - y0)%float) (cumsum (y0 :: ys)))).
  { apply Forall_map. eapply Forall_impl; [apply cumsum_zero, Hz|].
    intros c Hcz. cbn. now apply sub_zero. }
  assert (Hlen : length (map (fun c => (c - y0)%float) (cumsum (y0 :: ys)))
                 = length (y0 :: ys)).
  { rewrite length_map. cbn. f_equal.
    clear. generalize y0. induction ys; intros; cbn; [reflexivity|].
    now rewrite IHys. }
  destruct (map (fun c => (c - y0)%float) (cumsum (y0 :: ys)))
    as [|c0 cs] eqn:Ec; [discriminate Hlen|].
  assert (Hm : is_zero (np_max c0 cs) = true).
  { inversion Hc; subst. now apply np_max_zero. }
  rewrite (map_div_zero _ _ Hm Hc). f_equal.
  clear -Hlen. revert Hlen. generalize (c0 :: cs). generalize (y0 :: ys).
  induction l as [|a l IH]; intros [|b l'] H; cbn in *; try discriminate;
    [reflexivity|]. f_equal. apply IH. congruence.
Qed.

(** C3, as stated: a density that is zero everywhere is claimed to make
    the call fail.  On the grid 1, 2, 3 the call returns an interpolant
    (over a table of NaN) and raises nothing. *)
Lemma C3_zero_density_returns :
  ~ exists e, create_sampler Replay.env zero_density [1; 2; 3]%float = Raise e.
Proof.
  assert (E : create_sampler Replay.env zero_density [1; 2; 3]%float
              = Ok {| Replay.interp_x := [nan; nan; nan];
                      Replay.interp_y := [1; 2; 3]%float |})
    by (vm_compute; reflexivity).
  intros [e H]. rewrite E in H. discriminate H.
Qed.

Lemma C3_zero_density_passes_nan_witness :
  zero_density [1; 2; 3]%float <> [] /\
  all_zero (zero_density [1; 2; 3]%float) /\
  create_sampler Replay.env zero_density [1; 2; 3]%float
  = interp1d Replay.env (map (fun _ => nan) (zero_density [1; 2; 3]%float))
      [1; 2; 3]%float.
Proof.
  split; [discriminate|]. split.
  - repeat constructor.
  - apply C3_zero_density_passes_nan; [discriminate|repeat constructor].
Defined.

(** ** Claims on [simulate_crs] *)

Section Facts.
Context (P : platform).

Lemma sample_cr_params_none N_i N_j a b c d grid g p g' :
  sample_cr_params P 0 N_i N_j a b c d grid g = (Ok p, g') -> cr_i p = [].
Proof.
  unfold sample_cr_params.
  change (0 <? 0)%Z with false. change (Z.to_nat 0) with O.
  change (2 * 0)%nat with O.
  assert (R0 : forall h, random_array P 0 h = ([], h)) by reflexivity.
  repeat (rewrite R0; cbv iota beta).
  destruct (_ ≫= _) as [s1|e]; [|discriminate].
  repeat (rewrite R0; cbv iota beta).
  destruct (interp_call P s1 []) as [len|e]; [|discriminate].
  destruct (_ ≫= _) as [s2|e]; [|discriminate].
  repeat (rewrite R0; cbv iota beta).
  destruct (interp_call P s2 []) as [dEdx|e]; [|discriminate].
  intros [= <- _]. reflexivity.
Qed.

Lemma events_of_none N_i N_j gain pixel_size p :
  cr_i p = [] -> events_of P N_i N_j gain pixel_size p = [].
Proof. unfold events_of. intros ->. reflexivity. Qed.

(** C9. With [flux = 0] the mean of the event count is zero (or NaN, and
    the draw is refused): no event is injected and the call leaves every
    pixel of the image as it was. *)
Theorem C9_zero_flux_image_unchanged image time flux area gain
    pixel_size pixel_depth rng seed :
  (forall lam g, is_zero lam = true -> (next_poisson P lam g).1 = 0%Z) ->
  is_zero flux = true ->
  st_image (simulate_crs P image time flux area gain pixel_size pixel_depth
              rng seed).2 = image.
Proof.
  intros Hpois Hflux. unfold simulate_crs, poisson_scalar.
  set (g := match rng with Some g => g | None => default_rng P seed end).
  destruct (poisson_lam_ok (flux * area * time)%float) eqn:Hok;
    [|reflexivity].
  pose proof (Hpois _ g (zero_flux_mean _ _ _ Hflux Hok)) as HN.
  destruct (next_poisson P (flux * area * time)%float g) as [N g1].
  cbn in HN. subst N.
  destruct (sample_cr_params P 0 _ _ _ _ _ _ _ g1) as [[p|e] g2] eqn:Es;
    [|reflexivity].
  rewrite (events_of_none _ _ _ _ _ (sample_cr_params_none _ _ _ _ _ _ _ _ _ _ Es)).
  reflexivity.
Qed.

End Facts.

Lemma replay_poisson_zero lam g :
  is_zero lam = true -> (next_poisson Replay.env lam g).1 = 0%Z.
Proof.
  intros H.
  change (next_poisson Replay.env lam g) with (Replay.draw_poisson lam g).
  unfold Replay.draw_poisson. now rewrite H.
Qed.

Lemma C9_zero_flux_image_unchanged_witness :
  (forall lam g, is_zero lam = true ->
                 (next_poisson Replay.env lam g).1 = 0%Z) /\
  is_zero 0 = true /\
  st_image (simulate_crs Replay.env (Replay.zeros 4 4) 3.04 0 0.168 3.8 10 5
              (Some tape0) 47).2 = Replay.zeros 4 4.
Proof.
  split; [exact replay_poisson_zero|]. split; [reflexivity|].
  apply C9_zero_flux_image_unchanged; [exact replay_poisson_zero|reflexivity].
Defined.

(** ** Two runs with the same draws *)

Section Reproducible.
Context (P : platform) (R : generator P -> generator P -> Prop).
Hypothesis draws : same_draws P R.

Lemma random_array_same n : forall g g',
  R g g' ->
  (random_array P n g).1 = (random_array P n g').1 /\
  R (random_array P n g).2 (random_array P n g').2.
Proof.
  induction n as [|n IH]; intros g g' H; [now split|].
  cbn [random_array].
  destruct (proj1 draws g g' H) as [E1 H1].
  destruct (next_double P g) as [u g1], (next_double P g') as [u' g1'].
  cbn [fst snd] in E1, H1. subst u'.
  destruct (IH g1 g1' H1) as [E2 H2].
  destruct (random_array P n g1) as [us g2],
           (random_array P n g1') as [us' g2'].
  cbn [fst snd] in *. subst us'. now split.
Qed.

Lemma poisson_draws_same lams : forall g g',
  R g g' ->
  (poisson_draws P lams g).1 = (poisson_draws P lams g').1 /\
  R (poisson_draws P lams g).2 (poisson_draws P lams g').2.
Proof.
  induction lams as [|lam lams IH]; intros g g' H; [now split|].
  cbn [poisson_draws].
  destruct (proj2 draws lam g g' H) as [E1 H1].
  destruct (next_poisson P lam g) as [n g1],
           (next_poisson P lam g') as [n' g1'].
  cbn [fst snd] in E1, H1. subst n'.
  destruct (IH g1 g1' H1) as [E2 H2].
  destruct (poisson_draws P lams g1) as [ns g2],
           (poisson_draws P lams g1') as [ns' g2'].
  cbn [fst snd] in *. subst ns'. now split.
Qed.

Lemma poisson_array_same lams g g' :
  R g g' ->
  (poisson_array P lams g).1 = (poisson_array P lams g').1 /\
  R (poisson_array P lams g).2 (poisson_array P lams g').2.
Proof.
  intros H. unfold poisson_array.
  destruct (forallb poisson_lam_ok lams); [|now split].
  destruct (poisson_draws_same lams g g' H) as [E1 H1].
  destruct (poisson_draws P lams g) as [ns g1],
           (poisson_draws P lams g') as [ns' g1'].
  cbn [fst snd] in *. subst ns'. now split.
Qed.

Lemma poisson_scalar_same lam g g' :
  R g g' ->
  (poisson_scalar P lam g).1 = (poisson_scalar P lam g').1 /\
  R (poisson_scalar P lam g).2 (poisson_scalar P lam g').2.
Proof.
  intros H. unfold poisson_scalar.
  destruct (poisson_lam_ok lam); [|now split].
  destruct (proj2 draws lam g g' H) as [E1 H1].
  destruct (next_poisson P lam g) as [n g1],
           (next_poisson P lam g') as [n' g1'].
  cbn [fst snd] in *. subst n'. now split.
Qed.

Lemma sample_cr_params_same N N_i N_j a b c d grid g g' :
  R g g' ->
  (sample_cr_params P N N_i N_j a b c d grid g).1
  = (sample_cr_params P N N_i N_j a b c d grid g').1 /\
  R (sample_cr_params P N N_i N_j a b c d grid g).2
    (sample_cr_params P N N_i N_j a b c d grid g').2.
Proof.
  intros H. unfold sample_cr_params.
  destruct (N <? 0)%Z; [now split|].
  set (n := Z.to_nat N).
  destruct (random_array_same (2 * n) g g' H) as [E1 H1].
  destruct (random_array P (2 * n) g) as [us1 g1],
           (random_array P (2 * n) g') as [us1' g1'].
  cbn [fst snd] in E1, H1. subst us1'.
  destruct (random_array_same n g1 g1' H1) as [E2 H2].
  destruct (random_array P n g1) as [us2 g2],
           (random_array P n g1') as [us2' g2'].
  cbn [fst snd] in E2, H2. subst us2'.
  destruct (_ ≫= _) as [s1|e]; [|now split].
  destruct (random_array_same n g2 g2' H2) as [E3 H3].
  destruct (random_array P n g2) as [us3 g3],
           (random_array P n g2') as [us3' g3'].
  cbn [fst snd] in E3, H3. subst us3'.
  destruct (interp_call P s1 us3) as [len|e]; [|now split].
  destruct (_ ≫= _) as [s2|e]; [|now split].
  destruct (random_array_same n g3 g3' H3) as [E4 H4].
  destruct (random_array P n g3) as [us4 g4],
           (random_array P n g3') as [us4' g4'].
  cbn [fst snd] in E4, H4. subst us4'.
  destruct (interp_call P s2 us4) as [dEdx|e]; now split.
Qed.

Lemma inject_event_draws pixel_size pixel_depth ev (st st' : state P) :
  same_run R st st' ->
  (inject_event P pixel_size pixel_depth ev st).1
  = (inject_event P pixel_size pixel_depth ev st').1 /\
  same_run R (inject_event P pixel_size pixel_depth ev st).2
             (inject_event P pixel_size pixel_depth ev st').2.
Proof.
  intros H. pose proof H as (Hi & Ht & Hg). unfold inject_event.
  destruct (traverse _ _ _ _) as [[[ii jj] len]|e]; [|now split].
  destruct (pixel_size =? 0)%float; [now split|].
  rewrite <- Hi.
  destruct (flat_indices _ _) as [ks|e]; [|now split].
  set (lams := map (fun l => (ev_counts_per_pix ev * l)%float) _).
  destruct (poisson_array_same lams _ _ Hg) as [E1 H1].
  destruct (poisson_array P lams (st_rng st)) as [r g1],
           (poisson_array P lams (st_rng st')) as [r' g1'].
  cbn [fst snd] in E1, H1. subst r'.
  destruct r as [counts|e].
  - destruct (broadcast_to _ _) as [incr|e].
    + destruct (hits_breakpoint ii jj); cbn; (split; [reflexivity|]);
        repeat split; cbn; congruence.
    + cbn. split; [reflexivity|]. repeat split; cbn; congruence.
  - cbn. split; [reflexivity|]. repeat split; cbn; congruence.
Qed.

Lemma inject_events_draws pixel_size pixel_depth evs : forall st st' : state P,
  same_run R st st' ->
  (inject_events P pixel_size pixel_depth evs st).1
  = (inject_events P pixel_size pixel_depth evs st').1 /\
  same_run R (inject_events P pixel_size pixel_depth evs st).2
             (inject_events P pixel_size pixel_depth evs st').2.
Proof.
  induction evs as [|ev evs IH]; intros st st' H; [now split|].
  cbn [inject_events].
  destruct (inject_event_draws pixel_size pixel_depth ev st st' H) as [E1 H1].
  destruct (inject_event P pixel_size pixel_depth ev st) as [[[]|e1] s1],
           (inject_event P pixel_size pixel_depth ev st') as [[[]|e2] s2];
    cbn [fst snd] in E1, H1; try discriminate.
  - now apply IH.
  - split; [exact E1|exact H1].
Qed.


End Reproducible.

Lemma nth_nil_zero {A} (k : nat) (d : A) : List.nth k [] d = d.
Proof. now destruct k. Qed.

Lemma replay_same_draws : same_draws Replay.env same_tape.
Proof.
  split.
  - intros g g' [Hd Hc].
    change (next_double Replay.env) with Replay.draw. unfold Replay.draw.
    destruct g as [ds cs], g' as [ds' cs']. cbn [Replay.doubles] in *.
    destruct ds as [|u us], ds' as [|u' us']; cbn [fst snd].
    + split; [reflexivity|]. now split.
    + pose proof (Hd 0%nat) as H0. cbn in H0. split; [exact H0|].
      split; [|exact Hc]. intros k. cbn [Replay.doubles].
      pose proof (Hd (S k)) as Hk. cbn in Hk. rewrite nth_nil_zero. exact Hk.
    + pose proof (Hd 0%nat) as H0. cbn in H0. split; [exact H0|].
      split; [|exact Hc]. intros k. cbn [Replay.doubles].
      pose proof (Hd (S k)) as Hk. cbn in Hk. rewrite nth_nil_zero. exact Hk.
    + pose proof (Hd 0%nat) as H0. cbn in H0. split; [exact H0|].
      split; [|exact Hc]. intros k. exact (Hd (S k)).
  - intros lam g g' [Hd Hc].
    change (next_poisson Replay.env) with Replay.draw_poisson.
    unfold Replay.draw_poisson.
    destruct (is_zero lam); [split; [reflexivity|now split]|].
    destruct g as [ds cs], g' as [ds' cs']. cbn [Replay.counts] in *.
    destruct cs as [|n ns], cs' as [|n' ns']; cbn [fst snd].
    + split; [reflexivity|]. now split.
    + pose proof (Hc 0%nat) as H0. cbn in H0. split; [exact H0|].
      split; [exact Hd|]. intros k. cbn [Replay.counts].
      pose proof (Hc (S k)) as Hk. cbn in Hk. rewrite nth_nil_zero. exact Hk.
    + pose proof (Hc 0%nat) as H0. cbn in H0. split; [now rewrite H0|].
      split; [exact Hd|]. intros k. cbn [Replay.counts].
      pose proof (Hc (S k)) as Hk. cbn in Hk. rewrite nth_nil_zero. exact Hk.
    + pose proof (Hc 0%nat) as H0. cbn in H0. split; [exact H0|].
      split; [exact Hd|]. intros k. exact (Hc (S k)).
Qed.

Lemma nth_padded {A} (l : list A) (d : A) k :
  List.nth k (l ++ [d]) d = List.nth k l d.
Proof.
  revert k. induction l as [|a l IH]; intros [|k]; cbn; try reflexivity.
  - now destruct k.
  - apply IH.
Qed.

Lemma padded_same_tape t : same_tape t (padded t).
Proof.
  split; intros k; cbn [padded Replay.doubles Replay.counts];
    now rewrite nth_padded.
Qed.


(** The run of the witness, from seed 47 on an 8 x 8 image of zeros: three
    events are drawn and written. *)
Example seeded_run_draws_events :
  let r := simulate_crs Replay.env (Replay.zeros 8 8) 1 8 0.168 3.8 10 5
             None 47 in
  r.1 = Ok () /\ data (st_image r.2) !! 9%nat = Some 2%float /\
  Replay.counts (st_rng r.2) = [3; 2]%Z /\
  length (Replay.doubles (st_rng r.2)) = 1%nat.
Proof. vm_compute. repeat split. Qed.

(** C6. The call is claimed to touch nothing but the image and the
    generator.  With one event whose trail crosses pixel (54, 76), the
    loop of lines 291-293 enters the interactive debugger. *)
Theorem C6_debugger_entered :
  st_trace (simulate_crs Replay.env (Replay.zeros 100 100) 1 8 0.168 3.8 10 5
              (Some tape0) 47).2 = [PdbSetTrace].
Proof. vm_compute. reflexivity. Qed.

(** ** Pixels beyond the default bounds *)

Lemma scatter_lookup_other K ks new d :
  K ∉ ks -> scatter d ks new !! K = d !! K.
Proof.
  unfold scatter. revert new d.
  induction ks as [|k ks IH]; intros new d HK; [reflexivity|].
  destruct new as [|v new]; [reflexivity|]. cbn.
  rewrite IH by (intros ?; apply HK; now right).
  apply list_lookup_insert_ne. intros ->. apply HK. now left.
Qed.

Lemma norm_index_bounded n i r :
  (Z.of_nat n < 2 ^ 63)%Z -> index_bounded i -> norm_index n i = Ok r ->
  (Z.of_nat r <= 4096)%Z /\ (r < n)%nat.
Proof.
  unfold norm_index, index_bounded, F64.int64_min. intros Hn Hi.
  destruct ((i <? - Z.of_nat n) || (Z.of_nat n <=? i))%Z eqn:Hc; [discriminate|].
  apply orb_false_elim in Hc as [H1 H2].
  apply Z.ltb_ge in H1. apply Z.leb_gt in H2.
  intros [= <-]. destruct Hi as [->|Hi]; [lia|].
  destruct (i <? 0)%Z eqn:H0; [apply Z.ltb_lt in H0; lia|]. lia.
Qed.

Lemma flat_index_bounded a ij k :
  shape_ok a -> pixel_bounded ij -> flat_index a ij = Ok k ->
  exists r c, k = (r * ncols a + c)%nat /\ (Z.of_nat r <= 4096)%Z /\
              (Z.of_nat c <= 4096)%Z /\ (c < ncols a)%nat.
Proof.
  intros [Hr Hc] [Hi Hj]. unfold flat_index.
  destruct (norm_index (nrows a) ij.1) as [r|e] eqn:Er; [|discriminate].
  destruct (norm_index (ncols a) ij.2) as [c|e] eqn:Ec; [|discriminate].
  cbn. intros [= <-].
  destruct (norm_index_bounded _ _ _ Hr Hi Er).
  destruct (norm_index_bounded _ _ _ Hc Hj Ec).
  exists r, c. auto.
Qed.

Lemma flat_indices_miss a ijs ks p q :
  shape_ok a -> Forall pixel_bounded ijs -> flat_indices a ijs = Ok ks ->
  (4096 < Z.of_nat p \/ 4096 < Z.of_nat q)%Z -> (q < ncols a)%nat ->
  (p * ncols a + q)%nat ∉ ks.
Proof.
  intros Ha Hb. revert ks. induction Hb as [|ij ijs Hij Hb IH]; intros ks.
  - intros [= <-] _ _. apply not_elem_of_nil.
  - cbn [flat_indices].
    destruct (flat_index a ij) as [k|e] eqn:Ek; [|discriminate].
    destruct (flat_indices a ijs) as [ks'|e]; [|discriminate].
    cbn. intros [= <-] Hpq Hq.
    apply not_elem_of_cons. split; [|now apply IH].
    destruct (flat_index_bounded _ _ _ Ha Hij Ek) as (r & c & -> & Hr & Hc & Hcn).
    intros E.
    assert (p = r /\ q = c) as [-> ->]; [|lia].
    assert (Hdiv : (p * ncols a + q) `div` ncols a = (r * ncols a + c) `div` ncols a)
      by now rewrite E.
    rewrite !Nat.div_add_l, !Nat.div_small in Hdiv by lia. nia.
Qed.

Section Frame.
Context (P : platform).

Lemma inject_event_beyond pixel_size pixel_depth ev (st : state P) r st' p q :
  shape_ok (st_image st) ->
  inject_event P pixel_size pixel_depth ev st = (r, st') ->
  (4096 < Z.of_nat p \/ 4096 < Z.of_nat q)%Z -> (q < ncols (st_image st))%nat ->
  same_shape (st_image st') (st_image st) /\
  data (st_image st') !! (p * ncols (st_image st) + q)%nat
  = data (st_image st) !! (p * ncols (st_image st) + q)%nat.
Proof.
  intros Hs. unfold inject_event.
  destruct (traverse _ _ _ _) as [[[ii jj] len]|e] eqn:Et;
    [|intros [= _ <-]; now split].
  destruct (pixel_size =? 0)%float; [intros [= _ <-]; now split|].
  destruct (flat_indices _ _) as [ks|e] eqn:Ek; [|intros [= _ <-]; now split].
  destruct (poisson_array P _ _) as [[counts|e] g];
    [|intros [= _ <-]; now split].
  destruct (broadcast_to _ _) as [incr|e]; [|intros [= _ <-]; now split].
  intros H Hpq Hq.
  assert (Hmiss := flat_indices_miss _ _ _ p q Hs
                     (traverse_pixels_bounded _ _ _ _ _ Et) Ek Hpq Hq).
  destruct (hits_breakpoint ii jj); injection H as _ <-; cbn;
    (split; [now split|]); now apply scatter_lookup_other.
Qed.

Lemma inject_events_beyond pixel_size pixel_depth evs (st : state P) r st' p q :
  shape_ok (st_image st) ->
  inject_events P pixel_size pixel_depth evs st = (r, st') ->
  (4096 < Z.of_nat p \/ 4096 < Z.of_nat q)%Z -> (q < ncols (st_image st))%nat ->
  data (st_image st') !! (p * ncols (st_image st) + q)%nat
  = data (st_image st) !! (p * ncols (st_image st) + q)%nat.
Proof.
  revert st. induction evs as [|ev evs IH]; intros st Hs; cbn.
  - now intros [= _ <-].
  - destruct (inject_event P pixel_size pixel_depth ev st) as [[[]|e] st1] eqn:E1;
      intros H Hpq Hq;
      destruct (inject_event_beyond _ _ _ _ _ _ p q Hs E1 Hpq Hq) as [[Hr Hc] Hd].
    + rewrite <- Hd, <- Hc. apply IH; [|assumption..|congruence].
      unfold shape_ok. now rewrite Hr, Hc.
    + now injection H as _ <-.
Qed.

(** C10. [traverse] is called on line 288 without the image's shape, so it
    filters the crossings with the default bounds N_i = N_j = 4096: every
    crossing with a coordinate above 4096 is dropped, and a pixel whose
    row or column index is above 4096 is never written, whatever the size
    of the image. *)
Theorem C10_beyond_4096_untouched image time flux area gain pixel_size
    pixel_depth rng seed p q :
  shape_ok image ->
  (4096 < Z.of_nat p \/ 4096 < Z.of_nat q)%Z -> (q < ncols image)%nat ->
  data (st_image (simulate_crs P image time flux area gain pixel_size
                    pixel_depth rng seed).2) !! (p * ncols image + q)%nat
  = data image !! (p * ncols image + q)%nat.
Proof.
  intros Hs Hpq Hq. unfold simulate_crs.
  destruct (poisson_scalar P _ _) as [[N|e] g1]; [|reflexivity].
  destruct (sample_cr_params P N _ _ _ _ _ _ _ g1) as [[pr|e] g2];
    [|reflexivity].
  destruct (inject_events P _ _ _ _) as [r st'] eqn:E.
  apply (inject_events_beyond _ _ _ _ _ _ p q) in E; assumption.
Qed.

End Frame.

Lemma C10_beyond_4096_untouched_witness :
  shape_ok (Replay.zeros 4100 2) /\
  (4096 < Z.of_nat 4098 \/ 4096 < Z.of_nat 1)%Z /\ (1 < ncols (Replay.zeros 4100 2))%nat /\
  data (st_image (simulate_crs Replay.env (Replay.zeros 4100 2) 3.04 8 0.168
                    3.8 10 5 (Some tape1) 47).2) !! (4098 * ncols (Replay.zeros 4100 2) + 1)%nat
  = data (Replay.zeros 4100 2) !! (4098 * ncols (Replay.zeros 4100 2) + 1)%nat.
Proof.
  assert (Hs : shape_ok (Replay.zeros 4100 2)) by (split; reflexivity).
  assert (Hp : (4096 < Z.of_nat 4098 \/ 4096 < Z.of_nat 1)%Z) by (left; reflexivity).
  assert (Hq : (1 < ncols (Replay.zeros 4100 2))%nat) by (cbn; lia).
  split; [exact Hs|]. split; [exact Hp|]. split; [exact Hq|].
  exact (C10_beyond_4096_untouched Replay.env (Replay.zeros 4100 2) 3.04 8
           0.168 3.8 10 5 (Some tape1) 47 4098 1 Hs Hp Hq).
Defined.

(** The trail of [tape1] lies in rows 4097 and 4098 of a 4100 x 2 image:
    all its crossings are dropped, the count drawn for it is added to no
    pixel, and the image comes back as it was. *)
Example trail_beyond_4096_is_lost :
  let r := simulate_crs Replay.env (Replay.zeros 4100 2) 1 8 0.168 3.8 10 5
             (Some tape1) 47 in
  r.1 = Ok () /\ st_image r.2 = Replay.zeros 4100 2 /\
  Replay.counts (st_rng r.2) = [].
Proof. vm_compute. repeat split. Qed.

(** ** The image only grows *)

Lemma leb_refl_nonneg a : nonneg a -> (a <=? a)%float = true.
Proof.
  unfold nonneg. rewrite !FloatAxioms.leb_spec, Prim2SF_0.
  apply SFleb_refl_nonneg.
Qed.

Lemma pixelwise_le_refl d : Forall nonneg d -> pixelwise_le d d.
Proof.
  intros H. apply Forall_Forall2_diag. eapply Forall_impl; [exact H|].
  intros v. apply leb_refl_nonneg.
Qed.

Lemma pixelwise_le_trans d0 d1 d2 :
  Forall nonneg d0 -> pixelwise_le d0 d1 -> pixelwise_le d1 d2 ->
  pixelwise_le d0 d2.
Proof.
  intros Hn H01. revert d2. induction H01 as [|a b d0 d1 Hab H01 IH];
    intros d2 H12; inversion H12 as [|b' c d1' d2' Hbc H12']; subst.
  - constructor.
  - inversion Hn; subst. constructor; [|now apply IH].
    now apply (leb_trans_nonneg a b c).
Qed.

Lemma nonneg_of_le a b : nonneg a -> (a <=? b)%float = true -> nonneg b.
Proof.
  intros Ha Hab. unfold nonneg.
  apply (leb_trans_nonneg 0 a b); [reflexivity|exact Ha|exact Hab].
Qed.

(** Writes that do not lower the value first read at their index keep a
    buffer above the original one. *)
Lemma writes_grow (d0 : list float) (writes : list (nat * float)) dcur :
  Forall nonneg d0 ->
  Forall (fun kv => forall old, d0 !! kv.1 = Some old ->
                                (old <=? kv.2)%float = true) writes ->
  pixelwise_le d0 dcur -> Forall nonneg dcur ->
  let d' := foldl (fun d kv => <[kv.1 := kv.2]> d) dcur writes in
  pixelwise_le d0 d' /\ Forall nonneg d'.
Proof.
  intros Hn Hw. revert dcur.
  induction Hw as [|[k v] writes Hkv Hw IH]; intros dcur Hle Hcur; cbn.
  - now split.
  - cbn in Hkv. apply IH.
    + destruct (d0 !! k) as [old|] eqn:Ek.
      * rewrite <- (list_insert_id d0 k old Ek).
        apply Forall2_insert; [exact Hle|now apply Hkv].
      * rewrite list_insert_ge; [exact Hle|].
        rewrite <- (Forall2_length _ _ _ Hle). now apply lookup_ge_None.
    + destruct (d0 !! k) as [old|] eqn:Ek.
      * apply Forall_insert; [exact Hcur|].
        apply (nonneg_of_le old); [|now apply Hkv].
        exact (Forall_lookup_1 _ _ _ _ Hn Ek).
      * rewrite list_insert_ge; [exact Hcur|].
        rewrite <- (Forall2_length _ _ _ Hle). now apply lookup_ge_None.
Qed.

Lemma added_counts_grow d ks incr :
  Forall nonneg d -> Forall nonneg incr ->
  Forall (fun kv => forall old, d !! kv.1 = Some old ->
                                (old <=? kv.2)%float = true)
    (zip ks (zip_with PrimFloat.add (gather d ks) incr)).
Proof.
  intros Hd Hi. revert ks.
  induction Hi as [|i incr Hi0 Hi IH]; intros [|k ks]; cbn; try constructor.
  - cbn. intros old Ek. rewrite Ek. cbn.
    apply add_nonneg_ge; [|exact Hi0].
    exact (Forall_lookup_1 _ _ _ _ Hd Ek).
  - apply IH.
Qed.

Lemma scatter_grows d ks incr :
  Forall nonneg d -> Forall nonneg incr ->
  let d' := scatter d ks (zip_with PrimFloat.add (gather d ks) incr) in
  pixelwise_le d d' /\ Forall nonneg d'.
Proof.
  intros Hd Hi. unfold scatter.
  apply writes_grow; [exact Hd|now apply added_counts_grow| |exact Hd].
  now apply pixelwise_le_refl.
Qed.

Lemma broadcast_to_Forall {A} (Q : A -> Prop) n vals l :
  Forall Q vals -> broadcast_to n vals = Ok l -> Forall Q l.
Proof.
  unfold broadcast_to. intros H. destruct (decide _); [now intros [= <-]|].
  destruct vals as [|v [|? ?]]; try discriminate. intros [= <-].
  apply Forall_replicate. now inversion H.
Qed.

Section Growth.
Context (P : platform).
Hypothesis draws_nonneg : forall lam g, (0 <= (next_poisson P lam g).1)%Z.

Lemma poisson_draws_nonneg lams g :
  Forall (fun n => (0 <= n)%Z) (poisson_draws P lams g).1.
Proof.
  revert g. induction lams as [|lam lams IH]; intros g; cbn; [constructor|].
  pose proof (draws_nonneg lam g) as H0.
  destruct (next_poisson P lam g) as [n g1]. specialize (IH g1).
  destruct (poisson_draws P lams g1) as [ns g2]. cbn in *.
  now constructor.
Qed.

Lemma poisson_array_nonneg lams g counts g' :
  poisson_array P lams g = (Ok counts, g') ->
  Forall (fun n => (0 <= n)%Z) counts.
Proof.
  unfold poisson_array. destruct (forallb _ _); [|discriminate].
  pose proof (poisson_draws_nonneg lams g) as H.
  destruct (poisson_draws P lams g) as [ns g1]. now intros [= <- _].
Qed.

Lemma inject_event_grows pixel_size pixel_depth ev (st : state P) r st' :
  Forall nonneg (data (st_image st)) ->
  inject_event P pixel_size pixel_depth ev st = (r, st') ->
  pixelwise_le (data (st_image st)) (data (st_image st')) /\
  Forall nonneg (data (st_image st')).
Proof.
  intros Hn. unfold inject_event.
  assert (Hsame : pixelwise_le (data (st_image st)) (data (st_image st)) /\
                  Forall nonneg (data (st_image st)))
    by (split; [now apply pixelwise_le_refl|exact Hn]).
  destruct (traverse _ _ _ _) as [[[ii jj] len]|e];
    [|now intros [= _ <-]].
  destruct (pixel_size =? 0)%float; [now intros [= _ <-]|].
  destruct (flat_indices _ _) as [ks|e]; [|now intros [= _ <-]].
  destruct (poisson_array P _ _) as [[counts|e] g] eqn:Ep;
    [|now intros [= _ <-]].
  destruct (broadcast_to _ _) as [incr|e] eqn:Eb; [|now intros [= _ <-]].
  assert (Hi : Forall nonneg incr).
  { eapply broadcast_to_Forall; [|exact Eb].
    apply Forall_map. eapply Forall_impl; [exact (poisson_array_nonneg _ _ _ _ Ep)|].
    intros n Hn0. now apply of_Z_nonneg. }
  intros H.
  destruct (hits_breakpoint ii jj); injection H as _ <-; cbn;
    now apply scatter_grows.
Qed.

Lemma inject_events_grows pixel_size pixel_depth evs (st : state P) r st' :
  Forall nonneg (data (st_image st)) ->
  inject_events P pixel_size pixel_depth evs st = (r, st') ->
  pixelwise_le (data (st_image st)) (data (st_image st')) /\
  Forall nonneg (data (st_image st')).
Proof.
  revert st. induction evs as [|ev evs IH]; intros st Hn; cbn.
  - intros [= _ <-]. split; [now apply pixelwise_le_refl|exact Hn].
  - destruct (inject_event P pixel_size pixel_depth ev st) as [[[]|e] st1] eqn:E1;
      intros H; destruct (inject_event_grows _ _ _ _ _ _ Hn E1) as [Hle1 Hn1].
    + destruct (IH st1 Hn1 H) as [Hle2 Hn2]. split; [|exact Hn2].
      now apply (pixelwise_le_trans _ (data (st_image st1))).
    + injection H as _ <-. now split.
Qed.

(** C8. Every count added to a pixel is a Poisson draw, which is not
    negative: after the call (also when it ends with an exception) no
    pixel of a non-negative image is below its value before the call, and
    none is negative. *)
Theorem C8_image_never_decreases image time flux area gain pixel_size
    pixel_depth rng seed :
  Forall nonneg (data image) ->
  let image' := st_image (simulate_crs P image time flux area gain pixel_size
                            pixel_depth rng seed).2 in
  pixelwise_le (data image) (data image') /\ Forall nonneg (data image').
Proof.
  intros Hn. unfold simulate_crs.
  assert (Hsame : pixelwise_le (data image) (data image) /\
                  Forall nonneg (data image))
    by (split; [now apply pixelwise_le_refl|exact Hn]).
  destruct (poisson_scalar P _ _) as [[N|e] g1]; [|exact Hsame].
  destruct (sample_cr_params P N _ _ _ _ _ _ _ g1) as [[pr|e] g2];
    [|exact Hsame].
  destruct (inject_events P _ _ _ _) as [r st'] eqn:E.
  apply inject_events_grows in E; [exact E|exact Hn].
Qed.

End Growth.

Lemma replay_draws_nonneg lam g :
  (0 <= (next_poisson Replay.env lam g).1)%Z.
Proof.
  change (next_poisson Replay.env lam g) with (Replay.draw_poisson lam g).
  unfold Replay.draw_poisson. destruct (is_zero lam); [reflexivity|].
  destruct (Replay.counts g); cbn; lia.
Qed.

Lemma C8_image_never_decreases_witness :
  (forall lam g, (0 <= (next_poisson Replay.env lam g).1)%Z) /\
  Forall nonneg (data (Replay.zeros 100 100)) /\
  let image' := st_image (simulate_crs Replay.env (Replay.zeros 100 100) 1 8
                            0.168 3.8 10 5 (Some tape0) 47).2 in
  pixelwise_le (data (Replay.zeros 100 100)) (data image') /\
  Forall nonneg (data image').
Proof.
  assert (Hz : Forall nonneg (data (Replay.zeros 100 100)))
    by (apply Forall_replicate; reflexivity).
  split; [exact replay_draws_nonneg|]. split; [exact Hz|].
  exact (C8_image_never_decreases Replay.env replay_draws_nonneg
           (Replay.zeros 100 100) 1 8 0.168 3.8 10 5 (Some tape0) 47 Hz).
Defined.

(** * Further properties of the code *)

(** ** The arrays [traverse] returns *)

Lemma diff_rows_length l : length (diff_rows l) = pred (length l).
Proof.
  induction l as [|p l IH]; [reflexivity|].
  destruct l as [|q l]; [reflexivity|].
  change (diff_rows (p :: q :: l))
    with ((q.1 - p.1, q.2 - p.2)%float :: diff_rows (q :: l)).
  cbn [length]. rewrite IH. reflexivity.
Qed.

(** X1. The three arrays of a normal return: [ii] and [jj] have one entry
    per surviving crossing and [lengths] has as many, except that it
    still has one entry when no crossing survives. *)
Theorem traverse_array_lengths a b N_i N_j ii jj lengths :
  traverse a b N_i N_j = Ok (ii, jj, lengths) ->
  length ii = length jj /\ length lengths = Nat.max 1 (length ii).
Proof.
  unfold traverse. destruct (canonical a b) as [[i0 j0] [i1 j1]].
  destruct (surviving_crossings _ _ _ _ _) as [cs|e]; [|discriminate].
  cbn. destruct (decide _) as [Hlen|Hlen].
  - destruct (_ && _); [discriminate|]. intros [= <- <- <-].
    rewrite !length_map, length_app, diff_rows_length. cbn. lia.
  - intros [= <- <- <-]. rewrite !length_map. cbn. lia.
Qed.

Lemma traverse_array_lengths_witness :
  traverse (5000, 3.5)%float (5001, 7.5)%float default_N default_N
  = Ok ([], [], [4.1231056256176606%float]) /\
  length (@nil Z) = length (@nil Z) /\
  length [4.1231056256176606%float] = Nat.max 1 (length (@nil Z)).
Proof.
  assert (E : traverse (5000, 3.5)%float (5001, 7.5)%float default_N default_N
              = Ok ([], [], [4.1231056256176606%float]))
    by (vm_compute; reflexivity).
  split; [exact E|].
  exact (traverse_array_lengths _ _ _ _ _ _ _ E).
Defined.

Lemma Forall_zip_fst {A B} (Q : A -> Prop) (R : B -> Prop) l1 l2 :
  length l1 = length l2 ->
  Forall (fun ab : A * B => Q ab.1 /\ R ab.2) (zip l1 l2) ->
  Forall Q l1 /\ Forall R l2.
Proof.
  revert l2. induction l1 as [|a l1 IH]; intros [|b l2] Hl; try discriminate.
  - now split.
  - cbn. intros H. apply Forall_cons in H as [[Ha Hb] H].
    injection Hl as Hl. destruct (IH _ Hl H). split; now constructor.
Qed.

Lemma traverse_same_length a b N_i N_j ii jj lengths :
  traverse a b N_i N_j = Ok (ii, jj, lengths) ->
  length ii = length jj /\ lengths <> [].
Proof.
  unfold traverse. destruct (canonical a b) as [[i0 j0] [i1 j1]].
  destruct (surviving_crossings _ _ _ _ _) as [cs|e]; [|discriminate].
  cbn. destruct (decide _) as [Hlen|Hlen].
  - destruct (_ && _); [discriminate|]. intros [= <- <- <-].
    rewrite !length_map. split; [reflexivity|].
    intros H. apply (f_equal length) in H.
    rewrite length_map, length_app in H. cbn in H. lia.
  - intros [= <- <- <-]. now rewrite !length_map.
Qed.

(** X3. Under the default bounds every pixel index [traverse] returns
    is one of 0 .. 4096 or the int64 that a NaN coordinate turns into:
    row 4096 and column 4096, one past the default detector, can be
    returned, and no index is negative otherwise. *)
Theorem traverse_indices_bounded a b ii jj lengths :
  traverse a b default_N default_N = Ok (ii, jj, lengths) ->
  Forall index_bounded ii /\ Forall index_bounded jj.
Proof.
  intros E. apply Forall_zip_fst.
  - exact (proj1 (traverse_same_length _ _ _ _ _ _ _ E)).
  - exact (traverse_pixels_bounded _ _ _ _ _ E).
Qed.

Lemma traverse_indices_bounded_witness :
  exists ii jj lengths,
    traverse (0.5, 0.25)%float (2.5, 1.75)%float default_N default_N
    = Ok (ii, jj, lengths) /\
    Forall index_bounded ii /\ Forall index_bounded jj.
Proof.
  destruct (traverse (0.5, 0.25)%float (2.5, 1.75)%float default_N default_N)
    as [[[ii jj] lengths]|e] eqn:E.
  - exists ii, jj, lengths. split; [reflexivity|].
    exact (traverse_indices_bounded _ _ _ _ _ E).
  - vm_compute in E. discriminate E.
Defined.

(** ** Writing the counts of a trail *)

Lemma scatter_length d ks new : length (scatter d ks new) = length d.
Proof.
  unfold scatter. revert d new.
  induction ks as [|k ks IH]; intros d [|v new]; try reflexivity.
  cbn. rewrite IH. apply length_insert.
Qed.

Lemma scatter_last_write d ks new k q v :
  (k < length d)%nat -> ks !! q = Some k -> new !! q = Some v ->
  (forall q', (q < q')%nat -> ks !! q' <> Some k) ->
  scatter d ks new !! k = Some v.
Proof.
  revert d new q. induction ks as [|k0 ks IH]; intros d new q Hk Hq Hv Hlast;
    [discriminate|].
  destruct new as [|v0 new]; [discriminate|].
  change (scatter d (k0 :: ks) (v0 :: new))
    with (scatter (<[k0 := v0]> d) ks new).
  destruct q as [|q].
  - injection Hq as ->. injection Hv as ->.
    rewrite scatter_lookup_other.
    + now apply list_lookup_insert_eq.
    + intros Hin. apply list_elem_of_lookup in Hin as [q' Hq'].
      apply (Hlast (S q')); [lia|exact Hq'].
  - apply (IH _ _ q); [now rewrite length_insert|exact Hq|exact Hv|].
    intros q' Hlt. apply (Hlast (S q')). lia.
Qed.

(** X4. [image[ii, jj] += counts] with a repeated pixel: the pixel ends
    with its old value plus the count at its last occurrence alone; the
    counts at its earlier occurrences are lost. *)
Theorem repeated_pixel_keeps_last_count d ks incr k q old i :
  d !! k = Some old -> ks !! q = Some k -> incr !! q = Some i ->
  (forall q', (q < q')%nat -> ks !! q' <> Some k) ->
  scatter d ks (zip_with PrimFloat.add (gather d ks) incr) !! k
  = Some (old + i)%float.
Proof.
  intros Hold Hq Hi Hlast.
  apply (scatter_last_write _ _ _ _ q); [|exact Hq| |exact Hlast].
  - now apply lookup_lt_Some in Hold.
  - rewrite lookup_zip_with. unfold gather.
    rewrite list_lookup_fmap_Some_2 with (x := k) by exact Hq.
    now rewrite Hold; cbn; rewrite Hi.
Qed.

Lemma repeated_pixel_keeps_last_count_witness :
  [1; 2; 3]%float !! 1%nat = Some 2%float /\
  scatter [1; 2; 3]%float [1; 1]%nat
    (zip_with PrimFloat.add (gather [1; 2; 3]%float [1; 1]%nat)
       [10; 20]%float) !! 1%nat
  = Some (2 + 20)%float.
Proof.
  split; [reflexivity|].
  apply (repeated_pixel_keeps_last_count [1; 2; 3]%float [1; 1]%nat
           [10; 20]%float 1 1 2 20); try reflexivity.
  intros [|[|q']] Hq; [lia|lia|discriminate].
Defined.

(** ** What a call leaves as it was *)

Lemma div_by_zero x g : is_zero g = true -> nan_or_inf (x / g)%float.
Proof.
  intros [s E]%is_zero_SF. unfold nan_or_inf.
  rewrite FloatAxioms.div_spec, E.
  destruct (Prim2SF x) as [sx|sx| |sx mx ex]; cbn; eauto.
Qed.

Lemma mul_nan_or_inf c l : nan_or_inf c -> nan_or_inf (c * l)%float.
Proof.
  unfold nan_or_inf. rewrite FloatAxioms.mul_spec.
  intros [E|[s E]]; rewrite E; [now left|].
  destruct (Prim2SF l) as [sl|sl| |sl ml el]; cbn; eauto.
Qed.

Lemma nan_or_inf_rejected v : nan_or_inf v -> poisson_lam_ok v = false.
Proof.
  unfold poisson_lam_ok. rewrite !FloatAxioms.leb_spec, Prim2SF_0.
  intros [E|[[] E]]; rewrite E; reflexivity.
Qed.

Section Kept.
Context (P : platform).

Lemma inject_event_shape pixel_size pixel_depth ev (st : state P) r st' :
  inject_event P pixel_size pixel_depth ev st = (r, st') ->
  same_shape (st_image st') (st_image st) /\
  length (data (st_image st')) = length (data (st_image st)).
Proof.
  unfold inject_event.
  destruct (traverse _ _ _ _) as [[[ii jj] len]|e];
    [|intros [= _ <-]; now split].
  destruct (pixel_size =? 0)%float; [intros [= _ <-]; now split|].
  destruct (flat_indices _ _) as [ks|e]; [|intros [= _ <-]; now split].
  destruct (poisson_array P _ _) as [[counts|e] g];
    [|intros [= _ <-]; now split].
  destruct (broadcast_to _ _) as [incr|e]; [|intros [= _ <-]; now split].
  intros H.
  destruct (hits_breakpoint ii jj); injection H as _ <-; cbn;
    (split; [now split|apply scatter_length]).
Qed.

Lemma inject_events_shape pixel_size pixel_depth evs (st : state P) r st' :
  inject_events P pixel_size pixel_depth evs st = (r, st') ->
  same_shape (st_image st') (st_image st) /\
  length (data (st_image st')) = length (data (st_image st)).
Proof.
  revert st. induction evs as [|ev evs IH]; intros st; cbn.
  - intros [= _ <-]. now split.
  - destruct (inject_event P pixel_size pixel_depth ev st) as [[[]|e] st1] eqn:E1;
      intros H; destruct (inject_event_shape _ _ _ _ _ _ E1) as [[Hr Hc] Hl].
    + destruct (IH _ H) as [[Hr' Hc'] Hl']. split; [split|]; congruence.
    + injection H as _ <-. now split.
Qed.

Lemma simulate_crs_same_shape image time flux area gain pixel_size
    pixel_depth rng seed :
  same_shape image
    (st_image (simulate_crs P image time flux area gain pixel_size
                 pixel_depth rng seed).2).
Proof.
  unfold simulate_crs.
  destruct (poisson_scalar P _ _) as [[N|e] g1]; [|now split].
  destruct (sample_cr_params P N _ _ _ _ _ _ _ g1) as [[pr|e] g2];
    [|now split].
  destruct (inject_events P _ _ _ _) as [r st'] eqn:E.
  apply inject_events_shape in E as [[Hr Hc] _]. cbn in *. now split.
Qed.

(** X5. The call never resizes the image: the shape and the size of the
    buffer after the call are those before it, whatever the outcome. *)
Theorem simulate_crs_keeps_shape image time flux area gain pixel_size
    pixel_depth rng seed :
  let image' := st_image (simulate_crs P image time flux area gain pixel_size
                            pixel_depth rng seed).2 in
  nrows image' = nrows image /\ ncols image' = ncols image /\
  length (data image') = length (data image).
Proof.
  cbv zeta. unfold simulate_crs.
  destruct (poisson_scalar P _ _) as [[N|e] g1]; [|now cbn].
  destruct (sample_cr_params P N _ _ _ _ _ _ _ g1) as [[pr|e] g2];
    [|now cbn].
  destruct (inject_events P _ _ _ _) as [r st'] eqn:E.
  apply inject_events_shape in E as [[Hr Hc] Hl]. cbn in *. auto.
Qed.

Lemma flat_indices_breakpoint a ii jj :
  lacks_breakpoint_pixel a -> hits_breakpoint ii jj = true ->
  exists e, flat_indices a (zip ii jj) = Raise e.
Proof.
  intros Ha. unfold hits_breakpoint.
  induction (zip ii jj) as [|[i j] l IH]; cbn; [discriminate|].
  intros H. apply orb_prop in H as [H|H].
  - apply andb_prop in H as [Hj Hi]. cbn in Hj, Hi.
    apply Z.eqb_eq in Hj, Hi. subst i j. unfold flat_index, norm_index. cbn.
    destruct Ha as [Ha|Ha].
    + destruct (Z.of_nat (nrows a) <=? 54)%Z eqn:E;
        [rewrite orb_true_r; cbn; eauto|apply Z.leb_gt in E; lia].
    + destruct ((54 <? - Z.of_nat (nrows a)) || (Z.of_nat (nrows a) <=? 54))%Z;
        cbn; [eauto|].
      destruct (Z.of_nat (ncols a) <=? 76)%Z eqn:E;
        [rewrite orb_true_r; cbn; eauto|apply Z.leb_gt in E; lia].
  - destruct (flat_index a (i, j)) as [k|e]; cbn; [|eauto].
    destruct (IH H) as [e ->]. cbn. eauto.
Qed.

Lemma inject_event_quiet pixel_size pixel_depth ev (st : state P) r st' :
  lacks_breakpoint_pixel (st_image st) ->
  inject_event P pixel_size pixel_depth ev st = (r, st') ->
  st_trace st' = st_trace st.
Proof.
  intros Ha. unfold inject_event.
  destruct (traverse _ _ _ _) as [[[ii jj] len]|e]; [|now intros [= _ <-]].
  destruct (pixel_size =? 0)%float; [now intros [= _ <-]|].
  destruct (flat_indices _ _) as [ks|e] eqn:Ek; [|now intros [= _ <-]].
  destruct (poisson_array P _ _) as [[counts|e] g]; [|now intros [= _ <-]].
  destruct (broadcast_to _ _) as [incr|e]; [|now intros [= _ <-]].
  destruct (hits_breakpoint ii jj) eqn:Hb; [|now intros [= _ <-]].
  destruct (flat_indices_breakpoint _ _ _ Ha Hb) as [e He]. congruence.
Qed.

Lemma inject_events_quiet pixel_size pixel_depth evs (st : state P) r st' :
  lacks_breakpoint_pixel (st_image st) ->
  inject_events P pixel_size pixel_depth evs st = (r, st') ->
  st_trace st' = st_trace st.
Proof.
  revert st. induction evs as [|ev evs IH]; intros st Ha; cbn.
  - now intros [= _ <-].
  - destruct (inject_event P pixel_size pixel_depth ev st) as [[[]|e] st1] eqn:E1;
      intros H.
    + rewrite <- (inject_event_quiet _ _ _ _ _ _ Ha E1). apply IH; [|exact H].
      destruct (inject_event_shape _ _ _ _ _ _ E1) as [[Hr Hc] _].
      unfold lacks_breakpoint_pixel. now rewrite Hr, Hc.
    + injection H as _ <-. exact (inject_event_quiet _ _ _ _ _ _ Ha E1).
Qed.

(** X6. On an image with fewer than 55 rows or fewer than 77 columns the
    debugger is never entered: a trail that returns pixel (54, 76) fails
    with IndexError on line 290, before the test of line 291. *)
Theorem small_image_never_enters_debugger image time flux area gain
    pixel_size pixel_depth rng seed :
  lacks_breakpoint_pixel image ->
  st_trace (simulate_crs P image time flux area gain pixel_size pixel_depth
              rng seed).2 = [].
Proof.
  intros Ha. unfold simulate_crs.
  destruct (poisson_scalar P _ _) as [[N|e] g1]; [|reflexivity].
  destruct (sample_cr_params P N _ _ _ _ _ _ _ g1) as [[pr|e] g2];
    [|reflexivity].
  destruct (inject_events P _ _ _ _) as [r st'] eqn:E.
  now apply inject_events_quiet in E.
Qed.

(** X7. A pixel size of zero: the division of line 289 raises for the
    first event whose trail is returned, so the call writes nothing. *)
Theorem zero_pixel_size_writes_nothing image time flux area gain pixel_size
    pixel_depth rng seed :
  (pixel_size =? 0)%float = true ->
  let r := simulate_crs P image time flux area gain pixel_size pixel_depth
             rng seed in
  st_image r.2 = image /\ st_trace r.2 = [].
Proof.
  intros Hz. cbv zeta. unfold simulate_crs.
  destruct (poisson_scalar P _ _) as [[N|e] g1]; [|now split].
  destruct (sample_cr_params P N _ _ _ _ _ _ _ g1) as [[pr|e] g2];
    [|now split].
  destruct (events_of P _ _ _ _ _) as [|ev evs]; [now split|].
  cbn [inject_events]. unfold inject_event.
  destruct (traverse _ _ _ _) as [[[ii jj] len]|e]; [|now split].
  rewrite Hz. now split.
Qed.

Lemma inject_event_rejected pixel_size pixel_depth ev (st : state P) :
  nan_or_inf (ev_counts_per_pix ev) ->
  exists e st', inject_event P pixel_size pixel_depth ev st = (Raise e, st') /\
                st_image st' = st_image st /\ st_trace st' = st_trace st.
Proof.
  intros Hc. unfold inject_event.
  destruct (traverse _ _ _ _) as [[[ii jj] len]|e] eqn:Et; [|eauto].
  destruct (pixel_size =? 0)%float; [eauto|].
  destruct (flat_indices _ _) as [ks|e]; [|eauto].
  destruct len as [|l len];
    [now destruct (proj2 (traverse_same_length _ _ _ _ _ _ _ Et))|].
  unfold poisson_array. cbn [map forallb].
  rewrite (nan_or_inf_rejected _ (mul_nan_or_inf _ _ Hc)). cbn. eauto.
Qed.

Lemma zip_events_counts (Q : float -> Prop) i0 j0 i1 j1 c :
  Forall Q c ->
  Forall (fun ev => Q (ev_counts_per_pix ev)) (zip_events i0 j0 i1 j1 c).
Proof.
  intros H. revert i0 j0 i1 j1.
  induction H as [|k c Hk Hc IH]; intros [|a i0] [|b j0] [|a' i1] [|b' j1];
    cbn; try constructor; [exact Hk|apply IH].
Qed.

(** X8. A gain of zero: every count per pixel is a division by zero, an
    infinity or NaN, which [rng.poisson] refuses as a mean; the first
    event ends the call and the image is left as it was. *)
Theorem zero_gain_writes_nothing image time flux area gain pixel_size
    pixel_depth rng seed :
  is_zero gain = true ->
  let r := simulate_crs P image time flux area gain pixel_size pixel_depth
             rng seed in
  st_image r.2 = image /\ st_trace r.2 = [].
Proof.
  intros Hz. cbv zeta. unfold simulate_crs.
  destruct (poisson_scalar P _ _) as [[N|e] g1]; [|now split].
  destruct (sample_cr_params P N _ _ _ _ _ _ _ g1) as [[pr|e] g2];
    [|now split].
  assert (H : Forall (fun ev => nan_or_inf (ev_counts_per_pix ev))
                (events_of P (Z.of_nat (nrows image)) (Z.of_nat (ncols image))
                   gain pixel_size pr)).
  { unfold events_of. apply zip_events_counts, Forall_forall.
    intros v Hv. apply list_elem_of_In, in_map_iff in Hv as [x [<- _]].
    now apply div_by_zero. }
  destruct (events_of P _ _ _ _ _) as [|ev evs]; [now split|].
  apply Forall_cons in H as [H _]. cbn [inject_events].
  set (st := set_rng P _ g2).
  destruct (inject_event_rejected pixel_size pixel_depth ev st H)
    as (e & st' & -> & Hi & Ht).
  cbn [snd]. now rewrite Hi, Ht.
Qed.

End Kept.

Lemma small_image_never_enters_debugger_witness :
  lacks_breakpoint_pixel (Replay.zeros 4 4) /\
  st_trace (simulate_crs Replay.env (Replay.zeros 4 4) 1 8 0.168 3.8 10 5
              (Some tape0) 47).2 = [].
Proof.
  assert (H : lacks_breakpoint_pixel (Replay.zeros 4 4)) by (left; cbn; lia).
  split; [exact H|].
  exact (small_image_never_enters_debugger Replay.env (Replay.zeros 4 4) 1 8
           0.168 3.8 10 5 (Some tape0) 47 H).
Defined.

Lemma zero_pixel_size_writes_nothing_witness :
  (0 =? 0)%float = true /\
  st_image (simulate_crs Replay.env (Replay.zeros 100 100) 1 8 0.168 3.8 0 5
              (Some tape0) 47).2 = Replay.zeros 100 100 /\
  st_trace (simulate_crs Replay.env (Replay.zeros 100 100) 1 8 0.168 3.8 0 5
              (Some tape0) 47).2 = [].
Proof.
  split; [reflexivity|].
  exact (zero_pixel_size_writes_nothing Replay.env (Replay.zeros 100 100) 1 8
           0.168 3.8 0 5 (Some tape0) 47 eq_refl).
Defined.

Lemma zero_gain_writes_nothing_witness :
  is_zero 0 = true /\
  st_image (simulate_crs Replay.env (Replay.zeros 100 100) 1 8 0.168 0 10 5
              (Some tape0) 47).2 = Replay.zeros 100 100 /\
  st_trace (simulate_crs Replay.env (Replay.zeros 100 100) 1 8 0.168 0 10 5
              (Some tape0) 47).2 = [].
Proof.
  split; [reflexivity|].
  exact (zero_gain_writes_nothing Replay.env (Replay.zeros 100 100) 1 8
           0.168 0 10 5 (Some tape0) 47 eq_refl).
Defined.

(** ** What a call does besides writing pixel values *)

Lemma flat_indices_shape a a' ijs :
  same_shape a a' -> flat_indices a ijs = flat_indices a' ijs.
Proof.
  intros [Hr Hc]. induction ijs as [|ij ijs IH]; [reflexivity|].
  cbn [flat_indices]. rewrite IH. unfold flat_index. now rewrite Hr, Hc.
Qed.

Section Repeats.
Context (P : platform).

Lemma inject_event_same pixel_size pixel_depth ev (st1 st2 : state P) :
  same_but_pixels P st1 st2 ->
  let r1 := inject_event P pixel_size pixel_depth ev st1 in
  let r2 := inject_event P pixel_size pixel_depth ev st2 in
  r1.1 = r2.1 /\ same_but_pixels P r1.2 r2.2.
Proof.
  intros (Hs & Hg & Ht). cbv zeta. unfold inject_event.
  assert (H0 : same_but_pixels P st1 st2)
    by (repeat split; assumption || apply Hs).
  destruct (traverse _ _ _ _) as [[[ii jj] len]|e]; [|now split].
  destruct (pixel_size =? 0)%float; [now split|].
  rewrite (flat_indices_shape _ _ _ Hs).
  destruct (flat_indices _ _) as [ks|e]; [|now split].
  rewrite Hg.
  destruct (poisson_array P _ _) as [[counts|e] g].
  - destruct (broadcast_to _ _) as [incr|e].
    + destruct (hits_breakpoint ii jj); cbn; (split; [reflexivity|]);
        destruct Hs as [Hr Hc]; repeat split; cbn; congruence.
    + cbn. split; [reflexivity|]. destruct Hs. repeat split; cbn; congruence.
  - cbn. split; [reflexivity|]. destruct Hs. repeat split; cbn; congruence.
Qed.

Lemma inject_events_same pixel_size pixel_depth evs (st1 st2 : state P) :
  same_but_pixels P st1 st2 ->
  let r1 := inject_events P pixel_size pixel_depth evs st1 in
  let r2 := inject_events P pixel_size pixel_depth evs st2 in
  r1.1 = r2.1 /\ same_but_pixels P r1.2 r2.2.
Proof.
  cbv zeta. revert st1 st2. induction evs as [|ev evs IH]; intros st1 st2 H.
  - now split.
  - cbn [inject_events].
    destruct (inject_event_same pixel_size pixel_depth ev st1 st2 H) as [E1 E2].
    destruct (inject_event P pixel_size pixel_depth ev st1) as [[[]|e1] s1],
             (inject_event P pixel_size pixel_depth ev st2) as [[[]|e2] s2];
      cbn in E1, E2; try discriminate.
    + now apply IH.
    + split; [exact E1|exact E2].
Qed.

Lemma simulate_crs_same image image' time flux area gain pixel_size
    pixel_depth rng seed :
  same_shape image image' ->
  let r := simulate_crs P image time flux area gain pixel_size pixel_depth
             rng seed in
  let r' := simulate_crs P image' time flux area gain pixel_size pixel_depth
              rng seed in
  r.1 = r'.1 /\ same_but_pixels P r.2 r'.2.
Proof.
  intros Hs. cbv zeta. unfold simulate_crs.
  destruct Hs as [Hr Hc]. rewrite <- Hr, <- Hc.
  set (g := match rng with Some g => g | None => default_rng P seed end).
  destruct (poisson_scalar P _ _) as [[N|e] g1];
    [|cbn; repeat split; assumption].
  destruct (sample_cr_params P N _ _ _ _ _ _ _ g1) as [[pr|e] g2];
    [|cbn; repeat split; assumption].
  set (evs := events_of P _ _ gain pixel_size pr).
  apply inject_events_same. repeat split; cbn; assumption.
Qed.

(** X9. What a call does besides writing pixel values depends on the
    shape of the image alone: on two images of the same shape it has the
    same outcome, leaves the generator in the same state and enters the
    debugger the same number of times. *)
Theorem outcome_depends_on_shape_only image image' time flux area gain
    pixel_size pixel_depth rng seed :
  same_shape image image' ->
  let r := simulate_crs P image time flux area gain pixel_size pixel_depth
             rng seed in
  let r' := simulate_crs P image' time flux area gain pixel_size pixel_depth
              rng seed in
  r.1 = r'.1 /\ st_rng r.2 = st_rng r'.2 /\ st_trace r.2 = st_trace r'.2 /\
  same_shape (st_image r.2) (st_image r'.2).
Proof.
  intros Hs. cbv zeta.
  destruct (simulate_crs_same image image' time flux area gain pixel_size
              pixel_depth rng seed Hs) as [E1 (E2 & E3 & E4)].
  split; [exact E1|]. split; [exact E3|]. split; [exact E4|exact E2].
Qed.

Lemma frame_again image :
  let r := frame P image in
  let r' := frame P (st_image r.2) in
  r'.1 = r.1 /\ st_trace r'.2 = st_trace r.2.
Proof.
  cbv zeta. unfold frame.
  destruct (simulate_crs_same image
              (st_image (simulate_crs P image 8 0.168 3.04 3.8 10 5 None 47).2)
              8 0.168 3.04 3.8 10 5 None 47
              (simulate_crs_same_shape P image 8 0.168 3.04 3.8 10 5 None 47))
    as [E1 (_ & _ & E4)].
  split; [symmetry; exact E1|symmetry; exact E4].
Qed.

(** X10. The driver makes every call without a generator, so every frame
    seeds a new one with 47 and draws the same events on an image of the
    same shape: the loop ends as its first frame ends, normally after all
    the frames or with the first frame's exception, and every frame
    enters the debugger as often as the first. *)
Theorem frames_repeat n image :
  let r := frame P image in
  (frames P (S n) image).1.1 = r.1 /\
  (frames P (S n) image).2
  = concat (replicate (match r.1 with Ok _ => S n | Raise _ => 1 end)
              (st_trace r.2)).
Proof.
  cbv zeta. revert image. induction n as [|n IH]; intros image.
  - cbn [frames]. destruct (frame P image) as [[[]|e] st]; cbn;
      rewrite ?app_nil_r; auto.
  - change (frames P (S (S n)) image)
      with (match frame P image with
            | (Ok _, st) =>
                let '(r, image', t) := frames P (S n) (st_image st) in
                (r, image', st_trace st ++ t)
            | (Raise e, st) => (Raise e, st_image st, st_trace st)
            end).
    pose proof (frame_again image) as [A1 A2]. cbv zeta in A1, A2.
    destruct (frame P image) as [[[]|e] st]; cbn [fst snd] in *.
    + destruct (IH (st_image st)) as [B1 B2]. rewrite A1 in B1, B2.
      rewrite A2 in B2.
      destruct (frames P (S n) (st_image st)) as [[r im] t].
      cbn [fst snd] in *. split; [exact B1|]. rewrite B2. reflexivity.
    + split; [reflexivity|]. cbn. now rewrite app_nil_r.
Qed.

(** ** The parameters of the events *)

Lemma random_array_length n g : length (random_array P n g).1 = n.
Proof.
  revert g. induction n as [|n IH]; intros g; [reflexivity|].
  cbn [random_array]. destruct (next_double P g) as [u g1].
  specialize (IH g1). destruct (random_array P n g1) as [us g2].
  cbn in *. now rewrite IH.
Qed.

Lemma random_array_add a b g :
  (random_array P (a + b) g).2
  = (random_array P b (random_array P a g).2).2.
Proof.
  revert g. induction a as [|a IH]; intros g; [reflexivity|].
  cbn [Nat.add random_array]. destruct (next_double P g) as [u g1].
  specialize (IH g1). destruct (random_array P (a + b) g1) as [us g2].
  destruct (random_array P a g1) as [us' g2']. cbn in *. exact IH.
Qed.

Lemma rows2_length n : forall l, length l = (2 * n)%nat -> length (rows2 l) = n.
Proof.
  induction n as [|n IH]; intros l Hl.
  - destruct l; [reflexivity|discriminate].
  - destruct l as [|u [|v l]]; try (cbn in Hl; lia).
    cbn [rows2 length]. rewrite IH; [reflexivity|]. cbn in Hl. lia.
Qed.

Lemma sample_cr_params_positions N N_i N_j a b c d grid g p g' :
  sample_cr_params P N N_i N_j a b c d grid g = (Ok p, g') ->
  length (cr_i p) = Z.to_nat N.
Proof.
  unfold sample_cr_params.
  destruct (N <? 0)%Z eqn:EN; [discriminate|].
  set (n := Z.to_nat N).
  pose proof (random_array_length (2 * n) g) as L1.
  destruct (random_array P (2 * n) g) as [us1 g1]. cbn [fst snd] in *.
  destruct (random_array P n g1) as [us2 g2].
  destruct (_ ≫= _) as [s1|e]; [|discriminate].
  destruct (random_array P n g2) as [us3 g3].
  destruct (interp_call P s1 us3) as [len|e]; [|discriminate].
  destruct (_ ≫= _) as [s2|e]; [|discriminate].
  destruct (random_array P n g3) as [us4 g4].
  destruct (interp_call P s2 us4) as [dEdx|e]; [|discriminate].
  intros [= <- <-]. cbn [cr_i].
  now rewrite length_map, (rows2_length n us1 L1).
Qed.

(** X11. A successful [sample_cr_params] returns one position and one
    angle per requested event and takes exactly five uniform draws per
    event from the generator (two for the position, then one each for the
    angle, the length and the energy loss). *)
Theorem sample_cr_params_draws N N_i N_j a b c d grid g p g' :
  sample_cr_params P N N_i N_j a b c d grid g = (Ok p, g') ->
  (0 <= N)%Z /\
  length (cr_i p) = Z.to_nat N /\ length (cr_j p) = Z.to_nat N /\
  length (cr_phi p) = Z.to_nat N /\
  g' = (random_array P (5 * Z.to_nat N) g).2.
Proof.
  unfold sample_cr_params.
  destruct (N <? 0)%Z eqn:EN; [discriminate|]. apply Z.ltb_ge in EN.
  set (n := Z.to_nat N).
  replace (5 * n)%nat with (2 * n + (n + (n + n)))%nat by lia.
  rewrite !random_array_add.
  pose proof (random_array_length (2 * n) g) as L1.
  destruct (random_array P (2 * n) g) as [us1 g1]. cbn [fst snd] in *.
  pose proof (random_array_length n g1) as L2.
  destruct (random_array P n g1) as [us2 g2]. cbn [fst snd] in *.
  destruct (_ ≫= _) as [s1|e]; [|discriminate].
  destruct (random_array P n g2) as [us3 g3]. cbn [fst snd] in *.
  destruct (interp_call P s1 us3) as [len|e]; [|discriminate].
  destruct (_ ≫= _) as [s2|e]; [|discriminate].
  destruct (random_array P n g3) as [us4 g4]. cbn [fst snd] in *.
  destruct (interp_call P s2 us4) as [dEdx|e]; [|discriminate].
  intros [= <- <-]. cbn [cr_i cr_j cr_phi].
  rewrite !length_map, (rows2_length n us1 L1), L2. auto.
Qed.

Lemma cumsum_from_length acc l : length (cumsum_from acc l) = length l.
Proof.
  revert acc. induction l as [|v l IH]; intros acc; cbn; [reflexivity|].
  now rewrite IH.
Qed.

Lemma cumsum_length l : length (cumsum l) = length l.
Proof.
  destruct l as [|v l]; cbn; [reflexivity|]. now rewrite cumsum_from_length.
Qed.

(** X12. [create_sampler] raises by itself only on an empty grid, the
    IndexError of [y[0]]: on any other grid the maximum of line 26 is
    taken of a non-empty array, a table as long as the grid is passed to
    [interp1d], and the result or the exception is that of [interp1d]. *)
Theorem create_sampler_raises pdf x e :
  create_sampler P pdf x = Raise e ->
  (pdf x = [] /\ e = IndexError) \/
  exists table, length table = length (pdf x) /\
                interp1d P table x = Raise e.
Proof.
  unfold create_sampler. destruct (pdf x) as [|y0 ys] eqn:Ey.
  - intros [= <-]. now left.
  - pose proof (cumsum_length (y0 :: ys)) as L.
    destruct (map _ (cumsum (y0 :: ys))) as [|c0 cs] eqn:Ec.
    + apply (f_equal length) in Ec. rewrite length_map, L in Ec.
      discriminate.
    + intros H. right. eexists. split; [|exact H].
      now rewrite length_map, <- Ec, length_map.
Qed.

Lemma inject_event_trace pixel_size pixel_depth ev (st : state P) :
  (length (st_trace (inject_event P pixel_size pixel_depth ev st).2)
   <= S (length (st_trace st)))%nat.
Proof.
  unfold inject_event.
  destruct (traverse _ _ _ _) as [[[ii jj] len]|e]; [|cbn; lia].
  destruct (pixel_size =? 0)%float; [cbn; lia|].
  destruct (flat_indices _ _) as [ks|e]; [|cbn; lia].
  destruct (poisson_array P _ _) as [[counts|e] g]; [|cbn; lia].
  destruct (broadcast_to _ _) as [incr|e]; [|cbn; lia].
  destruct (hits_breakpoint ii jj); cbn; [rewrite length_app; cbn|]; lia.
Qed.

Lemma inject_events_trace pixel_size pixel_depth evs (st : state P) :
  (length (st_trace (inject_events P pixel_size pixel_depth evs st).2)
   <= length evs + length (st_trace st))%nat.
Proof.
  revert st. induction evs as [|ev evs IH]; intros st; cbn; [lia|].
  pose proof (inject_event_trace pixel_size pixel_depth ev st) as H.
  destruct (inject_event P pixel_size pixel_depth ev st) as [[[]|e] st1];
    cbn [snd] in *; [|lia].
  specialize (IH st1). lia.
Qed.

Lemma zip_events_length i0 j0 i1 j1 c :
  (length (zip_events i0 j0 i1 j1 c) <= length i0)%nat.
Proof.
  revert j0 i1 j1 c.
  induction i0 as [|a i0 IH]; intros [|b j0] [|a' i1] [|b' j1] [|k c];
    cbn; try lia.
  specialize (IH j0 i1 j1 c). lia.
Qed.

Lemma events_of_length N_i N_j gain pixel_size p :
  (length (events_of P N_i N_j gain pixel_size p) <= length (cr_i p))%nat.
Proof. unfold events_of. apply zip_events_length. Qed.

(** X13. The debugger is entered at most once per event: when the number
    of events drawn on line 275 is [N], a call enters it at most [N]
    times. *)
Theorem debugger_entries_bounded image time flux area gain pixel_size
    pixel_depth rng seed N g1 :
  poisson_scalar P (flux * area * time)
    (match rng with Some g => g | None => default_rng P seed end)
  = (Ok N, g1) ->
  (length (st_trace (simulate_crs P image time flux area gain pixel_size
                       pixel_depth rng seed).2) <= Z.to_nat N)%nat.
Proof.
  intros E. unfold simulate_crs. rewrite E.
  destruct (sample_cr_params P N _ _ _ _ _ _ _ g1) as [[pr|e] g2] eqn:Es;
    [|cbn; lia].
  apply sample_cr_params_positions in Es.
  set (st := set_rng P _ g2).
  pose proof (inject_events_trace pixel_size pixel_depth
                (events_of P (Z.of_nat (nrows image)) (Z.of_nat (ncols image))
                   gain pixel_size pr) st) as H.
  pose proof (events_of_length (Z.of_nat (nrows image))
                (Z.of_nat (ncols image)) gain pixel_size pr) as H2.
  assert (T0 : length (st_trace st) = 0%nat) by reflexivity.
  lia.
Qed.

End Repeats.

Lemma outcome_depends_on_shape_only_witness :
  same_shape (Replay.zeros 4 4)
    {| nrows := 4; ncols := 4; data := replicate 16 1%float |} /\
  st_trace (simulate_crs Replay.env (Replay.zeros 4 4) 1 8 0.168 3.8 10
              5 (Some tape0) 47).2
  = st_trace (simulate_crs Replay.env
                {| nrows := 4; ncols := 4; data := replicate 16 1%float |}
                1 8 0.168 3.8 10 5 (Some tape0) 47).2.
Proof.
  assert (H : same_shape (Replay.zeros 4 4)
                {| nrows := 4; ncols := 4; data := replicate 16 1%float |})
    by (split; reflexivity).
  split; [exact H|].
  exact (proj1 (proj2 (proj2
    (outcome_depends_on_shape_only Replay.env _ _ 1 8 0.168 3.8 10 5
       (Some tape0) 47 H)))).
Defined.

Lemma sample_cr_params_draws_witness :
  exists p g',
    sample_cr_params Replay.env 1 100 100 10 10000 10 2000 3 tape0
    = (Ok p, g') /\
    (0 <= 1)%Z /\
    length (cr_i p) = Z.to_nat 1 /\ length (cr_j p) = Z.to_nat 1 /\
    length (cr_phi p) = Z.to_nat 1 /\
    g' = (random_array Replay.env (5 * Z.to_nat 1) tape0).2.
Proof.
  destruct (sample_cr_params Replay.env 1 100 100 10 10000 10 2000 3 tape0)
    as [[p|e] g'] eqn:E.
  - exists p, g'. split; [reflexivity|].
    exact (sample_cr_params_draws Replay.env _ _ _ _ _ _ _ _ _ _ _ E).
  - vm_compute in E. discriminate E.
Defined.

Lemma create_sampler_raises_witness :
  create_sampler Replay.env (fun _ => []) [1; 2]%float = Raise IndexError /\
  (((fun _ : list float => @nil float) [1; 2]%float = [] /\
    IndexError = IndexError) \/
   exists table,
     length table = length ((fun _ : list float => @nil float) [1; 2]%float) /\
     interp1d Replay.env table [1; 2]%float = Raise IndexError).
Proof.
  assert (E : create_sampler Replay.env (fun _ => []) [1; 2]%float
              = Raise IndexError) by reflexivity.
  split; [exact E|].
  exact (create_sampler_raises Replay.env _ _ _ E).
Defined.

Lemma debugger_entries_bounded_witness :
  poisson_scalar Replay.env (8 * 0.168 * 1)%float tape0
  = (Ok 1%Z,
     {| Replay.doubles := Replay.doubles tape0; Replay.counts := [7; 9]%Z |}) /\
  (length (st_trace (simulate_crs Replay.env (Replay.zeros 100 100) 1 8 0.168
                       3.8 10 5 (Some tape0) 47).2) <= Z.to_nat 1)%nat.
Proof.
  assert (E : poisson_scalar Replay.env (8 * 0.168 * 1)%float tape0
              = (Ok 1%Z,
                 {| Replay.doubles := Replay.doubles tape0;
                    Replay.counts := [7; 9]%Z |}))
    by (vm_compute; reflexivity).
  split; [exact E|].
  exact (debugger_entries_bounded Replay.env (Replay.zeros 100 100) 1 8 0.168
           3.8 10 5 (Some tape0) 47 1 _ E).
Defined.

(** ** Finite values and a trail of no length *)

Lemma is_finite_SF x :
  is_finite x = true ->
  (exists s, Prim2SF x = S754_zero s) \/
  (exists s m e, Prim2SF x = S754_finite s m e).
Proof.
  unfold is_finite, is_nan, is_infinity.
  rewrite !FloatAxioms.eqb_spec, FloatAxioms.abs_spec.
  replace (Prim2SF infinity) with (S754_infinity false)
    by (vm_compute; reflexivity).
  destruct (Prim2SF x) as [s|s| |s m e]; cbn; try discriminate; eauto.
  rewrite orb_true_r. discriminate.
Qed.

Lemma sub_self x : is_finite x = true -> is_zero (x - x)%float = true.
Proof.
  intros H. apply is_zero_SF. rewrite FloatAxioms.sub_spec.
  destruct (is_finite_SF x H) as [[s ->]|(s & m & e & ->)].
  - destruct s; cbn; eauto.
  - unfold SF64sub, SFsub. rewrite Z.min_id, Z.sub_diag. cbn. eauto.
Qed.

Lemma eqb_self x : is_finite x = true -> (x =? x)%float = true.
Proof.
  intros H. unfold is_finite in H. apply negb_true_iff, orb_false_elim in H.
  destruct H as [H _]. unfold is_nan in H. now apply negb_false_iff in H.
Qed.

Lemma zero_length l1 l2 :
  is_zero l1 = true -> is_zero l2 = true ->
  is_zero (sqrt (F64.square l1 + F64.square l2))%float = true.
Proof.
  intros [s1 E1]%is_zero_SF [s2 E2]%is_zero_SF. apply is_zero_SF.
  unfold F64.square.
  rewrite FloatAxioms.sqrt_spec, FloatAxioms.add_spec, !FloatAxioms.mul_spec,
    E1, E2.
  destruct s1, s2; cbn; eauto.
Qed.

Lemma sorted_pair {R : relation point} `{!RelDecision R} (o : point) :
  merge_sort R [o; o] = [o; o].
Proof.
  symmetry. apply (replicate_Permutation 2 o). symmetry.
  apply merge_sort_Permutation.
Qed.

Lemma crossings_along_still o d si sj :
  is_zero d = true -> crossings_along o d si sj = Ok [o].
Proof.
  intros H. unfold crossings_along, F64.nonzero.
  change (d =? 0)%float with (is_zero d). now rewrite H.
Qed.

(** X14. A trail whose two ends are the same finite point inside the
    detector returns the pixel of that point, once, with a chord length
    of zero. *)
Theorem point_trail_one_pixel (a : point) N_i N_j :
  is_finite a.1 = true -> is_finite a.2 = true ->
  outside N_i N_j a = false ->
  exists l, traverse a a N_i N_j
            = Ok ([(pixel_of a).1], [(pixel_of a).2], [l]) /\
            is_zero l = true.
Proof.
  intros F1 F2 Hin. destruct a as [i j]. cbn [fst snd] in *.
  unfold traverse, canonical. cbn [fst snd].
  destruct (i <? i)%float; cbv beta iota zeta.
  all: unfold surviving_crossings.
  all: rewrite !crossings_along_still by now apply sub_self.
  all: cbn [mbind result_bind app]; unfold sort_by_col0, unique_rows.
  all: rewrite !sorted_pair; cbn [drop_repeats]; unfold row_eqb; cbn [fst snd].
  all: rewrite !eqb_self by assumption; cbn [andb filter].
  all: rewrite filter_cons, filter_nil; rewrite Hin; cbn [negb].
  all: destruct (decide (Is_true true)) as [_|n]; [|destruct n; exact I].
  all: destruct (decide _) as [Hl|_]; [cbn in Hl; lia|].
  all: eexists; split; [reflexivity|].
  all: apply zero_length; now apply sub_self.
Qed.

Lemma point_trail_one_pixel_witness :
  is_finite 54.5 = true /\ is_finite 76.5 = true /\
  outside default_N default_N (54.5, 76.5)%float = false /\
  exists l, traverse (54.5, 76.5)%float (54.5, 76.5)%float default_N default_N
            = Ok ([(pixel_of (54.5, 76.5)%float).1],
                  [(pixel_of (54.5, 76.5)%float).2], [l]) /\
            is_zero l = true.
Proof.
  split; [reflexivity|]. split; [reflexivity|]. split; [reflexivity|].
  apply (point_trail_one_pixel (54.5, 76.5)%float default_N default_N);
    reflexivity.
Defined.

(** ** A call that fails in the loop *)

Section Partial.
Context (P : platform).


End Partial.

